(** * Crane load-chart extraction: a model of [build_crane_database.py]

    The development embeds the text pipeline of the script: the PDF content
    stream decoder ([extract_pdf_text]), the chunk segmenter
    ([split_candidates]), the configuration extractor
    ([extract_configurations]) and the load point extractor
    ([extract_load_points]), with the regular expressions, the numeric
    parsing and the de-duplication they rest on; and beside it the file name
    parser ([parse_filename]), the page count estimate
    ([estimate_page_count]) and the configuration rows that
    [build_database] writes.

    Data.  A Python [str] is a list of code points and a [bytes] object a list
    of byte values, both as [list N].  Python floats are IEEE binary64 values,
    kept as a sign, a mantissa and a binary exponent and compared through
    their exact rational value.  The [configs] dictionary is a [gmap]; the
    [seen] set of the de-duplication holds keys compared with Python's [==].

    Unicode.  Python's [re] and [str] methods consult the Unicode database.
    White space is tabulated here for every code point; decimal digits,
    alphanumerics and lower-casing are tabulated for code points below 256 and
    taken from a [UnicodeDB] for the others, so that every statement holds for
    whatever the database says there. *)

From Stdlib Require Import ZArith NArith QArith List Bool String Ascii Lia.
From stdpp Require Import gmap.
Import ListNotations.

Local Open Scope N_scope.

(** ** Strings and bytes *)

Abbreviation str := (list N).
Abbreviation bytes := (list N).

Definition str_of (s : string) : str :=
  List.map N_of_ascii (list_ascii_of_string s).

(** Python's [x in y] on strings and on bytes. *)
Fixpoint starts_with (pat s : list N) : bool :=
  match pat, s with
  | [], _ => true
  | a :: pat', b :: s' => (a =? b) && starts_with pat' s'
  | _ :: _, [] => false
  end.

Fixpoint contains (pat s : list N) : bool :=
  starts_with pat s ||
  match s with
  | [] => false
  | _ :: s' => contains pat s'
  end.

(** [s.replace(old, new)] for a non-empty [old]: left to right, without
    overlap.  [skip] counts the characters of a replaced occurrence still to
    be dropped. *)
Fixpoint replace_from (old new s : list N) (skip : nat) : list N :=
  match s with
  | [] => []
  | c :: s' =>
      match skip with
      | S n => replace_from old new s' n
      | O =>
          if starts_with old s
          then new ++ replace_from old new s' (Nat.pred (length old))
          else c :: replace_from old new s' O
      end
  end.

Definition replace (old new s : list N) : list N := replace_from old new s O.

(** ** Character classes *)

(** The Unicode database outside Latin-1: the decimal digit value of a code
    point, whether it is alphanumeric, and its lower-case form. *)
Class UnicodeDB := {
  ext_decimal : N -> option N;
  ext_alnum : N -> bool;
  ext_lower : N -> list N
}.

Definition in_range (lo hi c : N) : bool := (lo <=? c) && (c <=? hi).

(** [Py_UNICODE_ISSPACE]: what [\s] and [str.strip] take for white space. *)
Definition uni_space (c : N) : bool :=
  in_range 9 13 c || in_range 28 32 c || (c =? 133) || (c =? 160)
  || (c =? 5760) || in_range 8192 8202 c || (c =? 8232) || (c =? 8233)
  || (c =? 8239) || (c =? 8287) || (c =? 12288).

(** [\s] in a bytes pattern, and [Py_ISSPACE]. *)
Definition ascii_space (c : N) : bool := in_range 9 13 c || (c =? 32).

Definition ascii_digit (c : N) : bool := in_range 48 57 c.
Definition ascii_upper (c : N) : bool := in_range 65 90 c.
Definition ascii_lower (c : N) : bool := in_range 97 122 c.

Section Unicode.
Context `{UnicodeDB}.

(** [Py_UNICODE_TODECIMAL]; [\d] matches where it is defined. *)
Definition uni_decimal (c : N) : option N :=
  if c <? 256
  then (if ascii_digit c then Some (c - 48) else None)
  else ext_decimal c.

Definition uni_digit (c : N) : bool :=
  match uni_decimal c with Some _ => true | None => false end.

(** Letters and numbers of Latin-1: the feminine and masculine ordinals,
    the micro sign, the superscripts and fractions, and the accented
    letters without the multiplication and division signs. *)
Definition latin1_alnum (c : N) : bool :=
  ascii_digit c || ascii_upper c || ascii_lower c
  || (c =? 170) || (c =? 178) || (c =? 179) || (c =? 181) || (c =? 185)
  || (c =? 186) || in_range 188 190 c
  || in_range 192 214 c || in_range 216 246 c || in_range 248 255 c.

(** [\w]: alphanumeric or underscore. *)
Definition uni_word (c : N) : bool :=
  (c =? 95) || (if c <? 256 then latin1_alnum c else ext_alnum c).

Definition uni_lower (c : N) : list N :=
  if c <? 256
  then (if ascii_upper c || in_range 192 214 c || in_range 216 222 c
        then [c + 32] else [c])
  else ext_lower c.

(** [s.lower()]. *)
Definition lower (s : str) : str := flat_map uni_lower s.
End Unicode.

(** [s.strip()]. *)
Fixpoint lstrip (s : str) : str :=
  match s with
  | c :: s' => if uni_space c then lstrip s' else s
  | [] => []
  end.

Definition rstrip (s : str) : str := rev (lstrip (rev s)).
Definition strip (s : str) : str := rstrip (lstrip s).

(** ** Regular expressions

    A backtracking matcher in the manner of Python's [re]: alternatives are
    tried left to right, a greedy repetition takes as many iterations as it
    can before giving some back, a lazy one as few.  The body of a repetition
    has to consume input at every iteration, which the bodies used below
    (single character classes) always do. *)

Inductive regex : Type :=
| Eps
| Chr (p : N -> bool)
| Cat (r1 r2 : regex)
| Alt (r1 r2 : regex)
| Rep (greedy : bool) (lo : nat) (hi : option nat) (r : regex)
| Grp (i : nat) (r : regex)
| Bnd (word : N -> bool)
| Bos.

(** A position in the subject: the character before it, the characters from
    it on, and the groups captured so far (latest first). *)
Record mstate := MState {
  prev : option N;
  rest : list N;
  caps : list (nat * list N)
}.

Definition below (n : nat) (hi : option nat) : bool :=
  match hi with
  | Some h => Nat.ltb n h
  | None => true
  end.

Definition consumed (s s' : list N) : list N :=
  firstn (length s - length s') s.

Definition is_word_at (word : N -> bool) (c : option N) : bool :=
  match c with
  | Some x => word x
  | None => false
  end.

Fixpoint rx_match (r : regex) (st : mstate) (k : mstate -> option mstate)
  {struct r} : option mstate :=
  match r with
  | Eps => k st
  | Chr p =>
      match rest st with
      | c :: s' => if p c then k (MState (Some c) s' (caps st)) else None
      | [] => None
      end
  | Cat r1 r2 => rx_match r1 st (fun st1 => rx_match r2 st1 k)
  | Alt r1 r2 =>
      match rx_match r1 st k with
      | Some res => Some res
      | None => rx_match r2 st k
      end
  | Rep greedy lo hi r1 =>
      (fix loop (fuel n : nat) (st0 : mstate) {struct fuel} : option mstate :=
         match fuel with
         | O => None
         | S fuel' =>
             let again (_ : unit) :=
               if below n hi
               then rx_match r1 st0 (fun st1 =>
                      if Nat.ltb (length (rest st1)) (length (rest st0))
                      then loop fuel' (S n) st1
                      else None)
               else None in
             let stop (_ : unit) :=
               if Nat.leb lo n then k st0 else None in
             if greedy
             then match again tt with
                  | Some res => Some res
                  | None => stop tt
                  end
             else match stop tt with
                  | Some res => Some res
                  | None => again tt
                  end
         end) (S (length (rest st))) O st
  | Grp i r1 =>
      rx_match r1 st (fun st1 =>
        k (MState (prev st1) (rest st1)
             ((i, consumed (rest st) (rest st1)) :: caps st1)))
  | Bnd word =>
      if xorb (is_word_at word (prev st)) (is_word_at word (hd_error (rest st)))
      then k st else None
  | Bos =>
      match prev st with
      | None => k st
      | Some _ => None
      end
  end.

(** The text of group [i] in a match; an unmatched group reads as empty. *)
Fixpoint group (i : nat) (cs : list (nat * list N)) : list N :=
  match cs with
  | [] => []
  | (j, s) :: cs' => if Nat.eqb i j then s else group i cs'
  end.

(** A subject cut by the matches of a pattern: the characters outside every
    match, and the matches with their groups and with what follows them in
    the subject. *)
Inductive piece :=
| Lit (c : N)
| Hit (whole : list N) (groups : list (nat * list N)) (after : list N).

(** Left-to-right scan for non-overlapping matches ([re.finditer]).  [skip]
    counts the characters of the current match still to be passed over.  An
    empty match is recorded and the scan moves on by one character; none of
    the patterns below can match the empty string. *)
Fixpoint rx_scan (r : regex) (p : option N) (s : list N) (skip : nat)
  : list piece :=
  match s with
  | [] =>
      match skip with
      | S _ => []
      | O =>
          match rx_match r (MState p [] []) Some with
          | Some st => [Hit [] (caps st) []]
          | None => []
          end
      end
  | c :: s' =>
      match skip with
      | S n => rx_scan r (Some c) s' n
      | O =>
          match rx_match r (MState p s []) Some with
          | Some st =>
              match consumed s (rest st) with
              | [] => Hit [] (caps st) s :: Lit c :: rx_scan r (Some c) s' O
              | w => Hit w (caps st) (rest st) :: rx_scan r (Some c) s' (Nat.pred (length w))
              end
          | None => Lit c :: rx_scan r (Some c) s' O
          end
      end
  end.

Definition finditer (r : regex) (s : list N) : list piece := rx_scan r None s O.

(** [re.findall] for a pattern with one group, and with three. *)
Fixpoint findall1 (ps : list piece) : list (list N) :=
  match ps with
  | [] => []
  | Lit _ :: ps' => findall1 ps'
  | Hit _ g _ :: ps' => group 1 g :: findall1 ps'
  end.

Fixpoint findall3 (ps : list piece) : list (list N * list N * list N) :=
  match ps with
  | [] => []
  | Lit _ :: ps' => findall3 ps'
  | Hit _ g _ :: ps' => (group 1 g, group 2 g, group 3 g) :: findall3 ps'
  end.

(** [re.sub(pattern, repl, s)] for a replacement without group references. *)
Fixpoint sub_pieces (repl : list N) (ps : list piece) : list N :=
  match ps with
  | [] => []
  | Lit c :: ps' => c :: sub_pieces repl ps'
  | Hit _ _ _ :: ps' => repl ++ sub_pieces repl ps'
  end.

(** [re.split(pattern, s)] for a pattern without groups: [cur] is the chunk
    being collected, reversed. *)
Fixpoint split_pieces (cur : list N) (ps : list piece) : list (list N) :=
  match ps with
  | [] => [rev cur]
  | Lit c :: ps' => split_pieces (c :: cur) ps'
  | Hit _ _ _ :: ps' => rev cur :: split_pieces [] ps'
  end.

(** [re.match]: a match at the start of the subject. *)
Definition rx_match_start (r : regex) (s : list N) : option (list (nat * list N)) :=
  match rx_match r (MState None s []) Some with
  | Some st => Some (caps st)
  | None => None
  end.

(** Pattern builders. *)
Definition lit (c : N) : regex := Chr (N.eqb c).
Definition lit_i (lo up : N) : regex := Chr (fun c => (c =? lo) || (c =? up)).
Definition star (r : regex) : regex := Rep true 0 None r.
Definition plus (r : regex) : regex := Rep true 1 None r.
Definition opt (r : regex) : regex := Rep true 0 (Some 1%nat) r.
Definition times (lo hi : nat) (r : regex) : regex := Rep true lo (Some hi) r.
Definition any : regex := Chr (fun _ => true).

Fixpoint seq (rs : list regex) : regex :=
  match rs with
  | [] => Eps
  | [r] => r
  | r :: rs' => Cat r (seq rs')
  end.

Definition lits (s : string) : regex := seq (List.map lit (str_of s)).

(** ** Exceptions *)

Inductive exn := ValueError | ZlibError.

Inductive exc (A : Type) : Type :=
| Ret (a : A)
| Raise (e : exn).
Arguments Ret {A} a.
Arguments Raise {A} e.

(** ** Floats

    A Python float is an IEEE binary64 value: [FFin neg m e] stands for
    [(-1)^neg * m * 2^e]. *)

Inductive pyfloat :=
| FFin (neg : bool) (m : Z) (e : Z)
| FInf (neg : bool)
| FNaN.

Definition dyadic (m e : Z) : Q :=
  if (0 <=? e)%Z then inject_Z (m * 2 ^ e) else Qmake m (Z.to_pos (2 ^ (- e))).

Definition fin_val (neg : bool) (m e : Z) : Q :=
  if neg then Qopp (dyadic m e) else dyadic m e.

(** [a == b] on floats. *)
Definition float_eqb (a b : pyfloat) : bool :=
  match a, b with
  | FFin n1 m1 e1, FFin n2 m2 e2 => Qeq_bool (fin_val n1 m1 e1) (fin_val n2 m2 e2)
  | FInf n1, FInf n2 => Bool.eqb n1 n2
  | _, _ => false
  end.

(** [low <= v] and [v <= high] for a float [v] and an exact bound (a Python
    integer, or a float literal such as 0.5 that binary64 holds exactly):
    Python compares the two by value. *)
Definition q_le_float (low : Q) (v : pyfloat) : bool :=
  match v with
  | FFin n m e => Qle_bool low (fin_val n m e)
  | FInf n => negb n
  | FNaN => false
  end.

Definition float_le_q (v : pyfloat) (high : Q) : bool :=
  match v with
  | FFin n m e => Qle_bool (fin_val n m e) high
  | FInf n => n
  | FNaN => false
  end.

(** The nearest integer to [num / den], ties to even ([0 < den]). *)
Definition round_half_even (num den : Z) : Z :=
  let q := (num / den)%Z in
  match (2 * (num mod den) ?= den)%Z with
  | Lt => q
  | Gt => (q + 1)%Z
  | Eq => if Z.even q then q else (q + 1)%Z
  end.

(** [2^e <= num / den]. *)
Definition ge_pow2 (num den e : Z) : bool :=
  if (0 <=? e)%Z then (den * 2 ^ e <=? num)%Z else (den <=? num * 2 ^ (- e))%Z.

(** The binary64 value nearest to [num / den] ([0 <= num], [0 < den]): 53
    bits of mantissa, exponents from -1074 (subnormals) to 971, ties to even,
    infinity on overflow. *)
Definition binary64_of_ratio (neg : bool) (num den : Z) : pyfloat :=
  if (num =? 0)%Z then FFin neg 0 (-1074)
  else
    let e0 := (Z.log2 num - Z.log2 den)%Z in
    let ex := if ge_pow2 num den e0 then e0 else (e0 - 1)%Z in
    let sh := Z.max (ex - 52) (-1074) in
    let q := if (0 <=? sh)%Z
             then round_half_even num (den * 2 ^ sh)
             else round_half_even (num * 2 ^ (- sh)) den in
    let sh' := if (q =? 2 ^ 53)%Z then (sh + 1)%Z else sh in
    let q' := if (q =? 2 ^ 53)%Z then (2 ^ 52)%Z else q in
    if (971 <? sh')%Z then FInf neg else FFin neg q' sh'.

(** The float nearest to [d * 10^e]. *)
Definition binary64_of_decimal (neg : bool) (d e : Z) : pyfloat :=
  if (0 <=? e)%Z
  then binary64_of_ratio neg (d * 10 ^ e) 1
  else binary64_of_ratio neg d (10 ^ (- e)).

(** The float of an integer and of a fraction, for stating results. *)
Definition float_of_Z (z : Z) : pyfloat := binary64_of_ratio false z 1.
Definition float_of_ratio (num den : Z) : pyfloat := binary64_of_ratio false num den.

(** *** [float(s)] on a string *)

Fixpoint span_digits (s : list N) : list N * list N :=
  match s with
  | c :: s' =>
      if ascii_digit c
      then let '(ds, r) := span_digits s' in (c :: ds, r)
      else ([], s)
  | [] => ([], [])
  end.

Definition digits_value (ds : list N) : Z :=
  fold_left (fun acc c => (10 * acc + Z.of_N (c - 48))%Z) ds 0%Z.

Definition take_sign (s : list N) : bool * list N :=
  match s with
  | 45 :: s' => (true, s')
  | 43 :: s' => (false, s')
  | _ => (false, s)
  end.

(** The exponent part: [e] or [E], an optional sign and at least one digit;
    when it is malformed the number ends before it. *)
Definition take_exponent (s : list N) : Z * list N :=
  match s with
  | c :: s' =>
      if (c =? 101) || (c =? 69)
      then
        let '(neg, s1) := take_sign s' in
        match span_digits s1 with
        | ([], _) => (0%Z, s)
        | (ds, r) => ((if neg then - digits_value ds else digits_value ds)%Z, r)
        end
      else (0%Z, s)
  | [] => (0%Z, [])
  end.

(** A decimal number at the start of [s], after the sign: digits, an optional
    point and digits, at least one digit in all, an optional exponent.  The
    result is the digit string read as an integer, the power of ten to apply
    and what follows the number. *)
Definition take_number (s : list N) : option (Z * Z * list N) :=
  let '(ip, s1) := span_digits s in
  let '(fp, s2) :=
    match s1 with
    | 46 :: s1' => span_digits s1'
    | _ => ([], s1)
    end in
  match ip, fp with
  | [], [] => None
  | _, _ =>
      let after := match s1 with
                   | 46 :: _ => s2
                   | _ => s1
                   end in
      let '(ex, r) := take_exponent after in
      Some (digits_value (ip ++ fp), (ex - Z.of_nat (length fp))%Z, r)
  end.

Definition ascii_fold (c : N) : N := if ascii_upper c then c + 32 else c.

(** [inf], [infinity] and [nan] in any case, after the sign. *)
Definition take_inf_or_nan (neg : bool) (s : list N) : option (pyfloat * list N) :=
  let l := List.map ascii_fold s in
  if starts_with (str_of "inf") l
  then
    if starts_with (str_of "infinity") l
    then Some (FInf neg, skipn 8 s)
    else Some (FInf neg, skipn 3 s)
  else if starts_with (str_of "nan") l
  then Some (FNaN, skipn 3 s)
  else None.

(** The number grammar on an ASCII string without underscores: the whole
    string has to be used up. *)
Definition float_from_ascii (s : list N) : exc pyfloat :=
  let '(neg, s1) := take_sign s in
  match take_number s1 with
  | Some (d, e, []) => Ret (binary64_of_decimal neg d e)
  | Some (_, _, _ :: _) => Raise ValueError
  | None =>
      match take_inf_or_nan neg s1 with
      | Some (v, []) => Ret v
      | _ => Raise ValueError
      end
  end.

(** Underscores may only stand between two digits; they are dropped.  [pv]
    is the character before. *)
Fixpoint drop_underscores (pv : N) (s : list N) : option (list N) :=
  match s with
  | [] => if pv =? 95 then None else Some []
  | c :: s' =>
      if c =? 95
      then if ascii_digit pv then drop_underscores c s' else None
      else if (pv =? 95) && negb (ascii_digit c) then None
      else match drop_underscores c s' with
           | Some r => Some (c :: r)
           | None => None
           end
  end.

Fixpoint lstrip_ascii (s : list N) : list N :=
  match s with
  | c :: s' => if ascii_space c then lstrip_ascii s' else s
  | [] => []
  end.

Definition strip_ascii (s : list N) : list N :=
  rev (lstrip_ascii (rev (lstrip_ascii s))).

Section FloatOfStr.
Context `{UnicodeDB}.

(** Decimal digits of any script become ASCII digits and white space
    becomes a space; the first other character above ASCII becomes a
    question mark and ends the string. *)
Fixpoint transform_decimal_and_space (s : str) : list N :=
  match s with
  | [] => []
  | c :: s' =>
      if c <? 127 then c :: transform_decimal_and_space s'
      else if uni_space c then 32 :: transform_decimal_and_space s'
      else match uni_decimal c with
           | Some d => (48 + d) :: transform_decimal_and_space s'
           | None => [63]
           end
  end.

Definition to_ascii (s : str) : list N :=
  if forallb (fun c => c <? 128) s then s else transform_decimal_and_space s.

(** [float(s)]: a float, or [ValueError]. *)
Definition py_float (s : str) : exc pyfloat :=
  let a := strip_ascii (to_ascii s) in
  if contains [95] a
  then match drop_underscores 0 a with
       | Some a' => float_from_ascii a'
       | None => Raise ValueError
       end
  else float_from_ascii a.

(** [parse_float]: the comma is read as a decimal point, and whatever
    [float] raises becomes [None]. *)
Definition parse_float (value : str) : option pyfloat :=
  match py_float (replace (str_of ",") (str_of ".") value) with
  | Ret v => Some v
  | Raise _ => None
  end.
End FloatOfStr.

(** [likely_value]. *)
Definition likely_value (v : pyfloat) (low high : Q) : bool :=
  q_le_float low v && float_le_q v high.

(** ** The text extractors *)

(** A row of [points]: [(current_config, boom, radius, cap, p[:220])], where
    [radius] is [None] on the fallback path. *)
Definition row : Type := str * option pyfloat * option pyfloat * pyfloat * str.
Definition key : Type := str * option pyfloat * option pyfloat * pyfloat.

(** [row[:4]]. *)
Definition key_of (r : row) : key :=
  let '(c, b, rd, t, _) := r in (c, b, rd, t).

Definition snippet_of (r : row) : str := snd r.

Fixpoint str_eqb (a b : str) : bool :=
  match a, b with
  | [], [] => true
  | x :: a', y :: b' => (x =? y) && str_eqb a' b'
  | _, _ => false
  end.

Definition opt_float_eqb (a b : option pyfloat) : bool :=
  match a, b with
  | None, None => true
  | Some x, Some y => float_eqb x y
  | _, _ => false
  end.

(** [==] on the key tuples. *)
Definition key_eqb (a b : key) : bool :=
  let '(c1, b1, r1, t1) := a in
  let '(c2, b2, r2, t2) := b in
  str_eqb c1 c2 && opt_float_eqb b1 b2 && opt_float_eqb r1 r2 && float_eqb t1 t2.

(** Whether the key of a row equals [k]. *)
Definition has_key (k : key) (r : row) : bool := key_eqb (key_of r) k.

(** The closing loop of [extract_load_points]: [seen] holds the keys met so
    far, and a row whose key is in it is dropped. *)
Fixpoint dedup (seen : list key) (points : list row) : list row :=
  match points with
  | [] => []
  | r :: points' =>
      if existsb (key_eqb (key_of r)) seen
      then dedup seen points'
      else r :: dedup (key_of r :: seen) points'
  end.

Definition CONFIG_HINTS : list str :=
  List.map str_of
    ["main boom"; "hauptausleger"; "jib"; "klappspitze"; "luffing"; "wipp";
     "fly"; "swing-away"; "offset"; "boom"]%string.

(** The tokens that never serve as a configuration key. *)
Definition STOP_CODES : list str :=
  List.map str_of
    ["PDF"; "LOAD"; "CHART"; "TON"; "MT"; "DEMAG"; "TEREX"; "TADANO"; "GROVE";
     "LIEBHERR"]%string.

Definition is_stop_code (c : str) : bool := existsb (str_eqb c) STOP_CODES.

Section Extractors.
Context `{UnicodeDB}.

(** [[A-Z]{1,4}(?:-[A-Z]{1,3})?] *)
Definition code_rx : regex :=
  Cat (times 1 4 (Chr ascii_upper))
      (opt (Cat (lit 45) (times 1 3 (Chr ascii_upper)))).

(** [\d{1,n}(?:[\.,]\d+)?] *)
Definition number_rx (n : nat) : regex :=
  Cat (times 1 n (Chr uni_digit))
      (opt (Cat (Chr (fun c => (c =? 46) || (c =? 44))) (plus (Chr uni_digit)))).

Definition ws : regex := Chr uni_space.
Definition unit_m : regex := lit_i 109 77.
Definition unit_t : regex := lit_i 116 84.

(** [\b([A-Z]{1,4}(?:-[A-Z]{1,3})?)\b] *)
Definition CONFIG_CODE_RE : regex :=
  seq [Bnd uni_word; Grp 1 code_rx; Bnd uni_word].

(** [(\d{1,3}(?:[\.,]\d+)?)\s*m\b], ignoring case *)
Definition NUMBER_M_RE : regex :=
  seq [Grp 1 (number_rx 3); star ws; unit_m; Bnd uni_word].

(** [(\d{1,4}(?:[\.,]\d+)?)\s*t\b], ignoring case *)
Definition NUMBER_T_RE : regex :=
  seq [Grp 1 (number_rx 4); star ws; unit_t; Bnd uni_word].

(** [(\d{1,3}(?:[\.,]\d+)?)\s*m\s+(\d{1,3}(?:[\.,]\d+)?)\s*m\s+(\d{1,4}(?:[\.,]\d+)?)\s*t\b],
    ignoring case *)
Definition TRIPLE_RE : regex :=
  seq [Grp 1 (number_rx 3); star ws; unit_m; plus ws;
       Grp 2 (number_rx 3); star ws; unit_m; plus ws;
       Grp 3 (number_rx 4); star ws; unit_t; Bnd uni_word].

(** [\s{2,}|\s\|\s|\s-\s] *)
Definition SPLIT_RE : regex :=
  Alt (Rep true 2 None ws)
      (Alt (seq [ws; lit 124; ws]) (seq [ws; lit 45; ws])).

(** [^([A-Z]{1,4}(?:-[A-Z]{1,3})?)\b] *)
Definition CODE_START_RE : regex :=
  seq [Bos; Grp 1 code_rx; Bnd uni_word].

Definition split_candidates (text : str) : list str :=
  split_pieces [] (finditer SPLIT_RE text).

(** [re.sub(r"\s+", " ", part).strip()] *)
Definition normalize (part : str) : str :=
  strip (sub_pieces (str_of " ") (finditer (plus ws) part)).

(** The first candidate code that is not on the stop list. *)
Fixpoint first_code (codes : list str) : option str :=
  match codes with
  | [] => None
  | c :: codes' => if is_stop_code c then first_code codes' else Some c
  end.

(** What one chunk offers to [configs]: a code and a description, or
    nothing (the [continue] branches). *)
Definition config_of_part (part : str) : option (str * str) :=
  let part_norm := normalize part in
  if Nat.ltb (length part_norm) 8 then None
  else
    let lower := lower part_norm in
    if negb (existsb (fun h => contains h lower) CONFIG_HINTS) then None
    else
      match findall1 (finditer CONFIG_CODE_RE part_norm) with
      | [] => None
      | codes =>
          match first_code codes with
          | None => None
          | Some [] => None
          | Some code => Some (code, firstn 220 part_norm)
          end
      end.

(** [if code not in configs: configs[code] = part_norm[:220]] *)
Definition record_config (configs : gmap (list N) (list N)) (part : str)
  : gmap (list N) (list N) :=
  match config_of_part part with
  | None => configs
  | Some (code, descr) =>
      match configs !! code with
      | Some _ => configs
      | None => <[code := descr]> configs
      end
  end.

(** The loop of [extract_configurations] over a chunk sequence. *)
Definition configurations_of (parts : list str) : gmap (list N) (list N) :=
  fold_left record_config parts ∅.

Definition extract_configurations (text : str) : gmap (list N) (list N) :=
  configurations_of (split_candidates text).

(** The strong pattern on a normalized chunk [p]: one row for every match
    whose three numbers parse and are plausible. *)
Definition triple_row (current_config p : str) (m : str * str * str)
  : list row :=
  let '(boom_s, radius_s, cap_s) := m in
  match parse_float boom_s, parse_float radius_s, parse_float cap_s with
  | Some boom, Some radius, Some cap =>
      if likely_value boom 5 200 && likely_value radius 1 200
         && likely_value cap (1 # 2) 5000
      then [(current_config, Some boom, Some radius, cap, firstn 220 p)]
      else []
  | _, _, _ => []
  end.

Definition triple_points (current_config p : str) : list row :=
  flat_map (triple_row current_config p) (findall3 (finditer TRIPLE_RE p)).

(** [[x for x in xs if x is not None and likely_value(x, low, high)]] *)
Fixpoint plausible (low high : Q) (xs : list (option pyfloat)) : list pyfloat :=
  match xs with
  | [] => []
  | Some x :: xs' =>
      if likely_value x low high
      then x :: plausible low high xs'
      else plausible low high xs'
  | None :: xs' => plausible low high xs'
  end.

(** The fallback pattern on a normalized chunk [p]. *)
Definition fallback_points (current_config p : str) : list row :=
  let ms := List.map parse_float (findall1 (finditer NUMBER_M_RE p)) in
  let ts := List.map parse_float (findall1 (finditer NUMBER_T_RE p)) in
  let ms := plausible 5 200 ms in
  let ts := plausible (1 # 2) 5000 ts in
  match ms, ts with
  | m0 :: _, t0 :: _ => [(current_config, Some m0, None, t0, firstn 220 p)]
  | _, _ => []
  end.

(** The configuration in force for a normalized chunk [p]. *)
Definition switch_config (current_config p : str) : str :=
  match rx_match_start CODE_START_RE p with
  | Some g => group 1 g
  | None => current_config
  end.

(** The rows a chunk adds to [points], given the configuration in force
    before it. *)
Definition chunk_points (current_config part : str) : list row :=
  let p := normalize part in
  if Nat.ltb (length p) 4 then []
  else
    let cfg := switch_config current_config p in
    triple_points cfg p ++ fallback_points cfg p.

(** One turn of the loop of [extract_load_points] on the state
    [(current_config, points)]. *)
Definition load_step (st : str * list row) (part : str) : str * list row :=
  let '(current_config, points) := st in
  let p := normalize part in
  if Nat.ltb (length p) 4 then st
  else
    let cfg := switch_config current_config p in
    (cfg, points ++ triple_points cfg p ++ fallback_points cfg p).

(** The rows collected over a chunk sequence, before de-duplication. *)
Definition collect_points (default_config : str) (parts : list str)
  : str * list row :=
  fold_left load_step parts (default_config, []).

Definition load_points_of (default_config : str) (parts : list str)
  : list row :=
  dedup [] (snd (collect_points default_config parts)).

Definition extract_load_points_from (text default_config : str) : list row :=
  load_points_of default_config (split_candidates text).

(** [extract_load_points(text)], with the default ["UNKNOWN"]. *)
Definition extract_load_points (text : str) : list row :=
  extract_load_points_from text (str_of "UNKNOWN").
End Extractors.

(** ** The stream decoder *)

(** [raw.decode("utf-16-be", "ignore")]: two bytes to a code unit, a high and
    a low surrogate to one code point; a surrogate out of place is dropped,
    and so is what remains after a high surrogate or a single byte at the
    end. *)
Definition is_surrogate (u : N) : bool := in_range 55296 57343 u.
Definition is_low_surrogate (u : N) : bool := in_range 56320 57343 u.

Fixpoint decode_utf16_be (raw : bytes) : str :=
  match raw with
  | hi :: lo :: raw' =>
      let u := 256 * hi + lo in
      if negb (is_surrogate u) then u :: decode_utf16_be raw'
      else if is_low_surrogate u then decode_utf16_be raw'
      else
        match raw' with
        | hi2 :: lo2 :: raw'' =>
            let u2 := 256 * hi2 + lo2 in
            if is_low_surrogate u2
            then (65536 + (u - 55296) * 1024 + (u2 - 56320)) :: decode_utf16_be raw''
            else decode_utf16_be raw'
        | _ => []
        end
  | _ => []
  end.

(** [raw.decode("latin1", "ignore")]: every byte is its code point. *)
Definition decode_latin1 (raw : bytes) : str := raw.

Definition _decode_pdf_literal (raw : bytes) : str :=
  let raw := replace (str_of "\(") (str_of "(") raw in
  let raw := replace (str_of "\)") (str_of ")") raw in
  let raw := replace (str_of "\n") (str_of " ") raw in
  let raw := replace (str_of "\r") (str_of " ") raw in
  let raw := replace (str_of "\t") (str_of " ") raw in
  if existsb (N.eqb 0) raw then decode_utf16_be raw else decode_latin1 raw.

(** [stream\r?\n] *)
Definition STREAM_RE : regex :=
  seq [lits "stream"; opt (lit 13); lit 10].

Definition bws : regex := Chr ascii_space.
Definition lazy_any : regex := Rep false 0 None any.

(** [\((.*?)\)\s*Tj], the dot matching every byte *)
Definition SHOW_RE : regex :=
  seq [lit 40; Grp 1 lazy_any; lit 41; star bws; lits "Tj"].

(** [\[(.*?)\]\s*TJ] *)
Definition SHOW_ARRAY_RE : regex :=
  seq [lit 91; Grp 1 lazy_any; lit 93; star bws; lits "TJ"].

(** [\((.*?)\)] *)
Definition LITERAL_RE : regex :=
  seq [lit 40; Grp 1 lazy_any; lit 41].

(** [data[start:end]] for [end = data.find(pat, start)], given [data[start:]];
    [None] when [find] answers -1. *)
Fixpoint upto (pat s : bytes) : option bytes :=
  if starts_with pat s then Some []
  else match s with
       | [] => None
       | c :: s' =>
           match upto pat s' with
           | Some body => Some (c :: body)
           | None => None
           end
       end.

Definition ends_with (suffix s : bytes) : bool :=
  starts_with (rev suffix) (rev s).

(** The line end before [endstream] does not belong to the stream. *)
Definition strip_eol (stream : bytes) : bytes :=
  if ends_with [13; 10] stream then firstn (length stream - 2) stream
  else if ends_with [10] stream then firstn (length stream - 1) stream
  else stream.

(** The candidate streams of a file, in the order of their opening markers. *)
Fixpoint streams_of (ps : list piece) : list bytes :=
  match ps with
  | [] => []
  | Lit _ :: ps' => streams_of ps'
  | Hit _ _ after :: ps' =>
      match upto (str_of "endstream") after with
      | Some body => strip_eol body :: streams_of ps'
      | None => streams_of ps'
      end
  end.

Definition candidate_streams (data : bytes) : list bytes :=
  streams_of (finditer STREAM_RE data).

(** [text = _decode_pdf_literal(literal).strip(); if text: chunks.append(text)] *)
Definition shown_text (literal : bytes) : list str :=
  match strip (_decode_pdf_literal literal) with
  | [] => []
  | text => [text]
  end.

(** The texts a decompressed stream shows: the operands of [Tj], then the
    literals in the operand arrays of [TJ]. *)
Definition stream_texts (decoded : bytes) : list str :=
  flat_map shown_text (findall1 (finditer SHOW_RE decoded))
  ++ flat_map (fun arr => flat_map shown_text (findall1 (finditer LITERAL_RE arr)))
       (findall1 (finditer SHOW_ARRAY_RE decoded)).

Definition has_show_operator (decoded : bytes) : bool :=
  contains (str_of "Tj") decoded || contains (str_of "TJ") decoded.

(** [" ".join(chunks)] *)
Fixpoint join (sep : str) (chunks : list str) : str :=
  match chunks with
  | [] => []
  | [c] => c
  | c :: chunks' => c ++ sep ++ join sep chunks'
  end.

Section Decoder.
(** [zlib.decompress], which returns the inflated bytes or raises. *)
Variable zlib_decompress : bytes -> exc bytes.

(** What one candidate stream adds to [chunks]: nothing when it does not
    inflate ([except Exception: continue]) or shows no text. *)
Definition texts_of_stream (stream : bytes) : list str :=
  match zlib_decompress stream with
  | Raise _ => []
  | Ret decoded =>
      if negb (has_show_operator decoded) then []
      else stream_texts decoded
  end.

(** [extract_pdf_text], on the bytes read from the path. *)
Definition extract_pdf_text (data : bytes) : str :=
  let chunks := flat_map texts_of_stream (candidate_streams data) in
  normalize (join (str_of " ") chunks).

(** A candidate that inflates to content with a text-showing operator. *)
Definition is_text_stream (stream : bytes) : bool :=
  match zlib_decompress stream with
  | Raise _ => false
  | Ret decoded => has_show_operator decoded
  end.

Context `{UnicodeDB}.

(** The core on one document: the text, its configurations and its load
    points, as [build_database] obtains them. *)
Definition core (data : bytes)
  : str * gmap (list N) (list N) * list row :=
  let text := extract_pdf_text data in
  (text, extract_configurations text, extract_load_points text).
End Decoder.

(** A Unicode database that knows no digit and no letter outside Latin-1 and
    lower-cases nothing there: enough for texts within Latin-1. *)
Definition latin1_db : UnicodeDB :=
  {| ext_decimal := fun _ => None;
     ext_alnum := fun _ => false;
     ext_lower := fun c => [c] |}.

(** [lo <= v <= hi] for a finite float [v]. *)
Definition float_between (lo hi : Q) (v : pyfloat) : Prop :=
  match v with
  | FFin n m e => (lo <= fin_val n m e)%Q /\ (fin_val n m e <= hi)%Q
  | _ => False
  end.

(** The offsets at which [pat] occurs in [s], counted from [i]. *)
Fixpoint positions_from (i : nat) (pat s : list N) : list nat :=
  (if starts_with pat s then [i] else [])
  ++ match s with
     | [] => []
     | _ :: s' => positions_from (S i) pat s'
     end.

Definition positions (pat s : list N) : list nat := positions_from O pat s.

Section FirstOffer.
Context `{UnicodeDB}.

(** The description of the first chunk of [parts] that offers [code]. *)
Fixpoint first_offer (code : str) (parts : list str) : option str :=
  match parts with
  | [] => None
  | part :: parts' =>
      match config_of_part part with
      | Some (c, d) =>
          if str_eqb c code then Some d else first_offer code parts'
      | None => first_offer code parts'
      end
  end.
End FirstOffer.

(** A stand-in for [zlib.decompress] in examples: it accepts the streams
    that open with the byte 0x78 of a zlib header and returns what follows,
    and raises on all others. *)
Definition toy_decompress (stream : bytes) : exc bytes :=
  match stream with
  | 120 :: body => Ret body
  | _ => Raise ZlibError
  end.

Definition newline : str := [10].

(** A file with two stream objects, one that inflates to content without a
    text-showing operator and one that does not inflate.  The line end after
    the first [endstream] opens a third candidate, which reaches to the
    second [endstream]. *)
Definition file_without_text : bytes :=
  str_of "1 0 obj stream" ++ newline ++ str_of "xBT 1 0 0 RG ET" ++ newline
  ++ str_of "endstream" ++ newline ++ str_of "2 0 obj stream" ++ newline
  ++ str_of "plain bytes" ++ newline ++ str_of "endstream".

(** The chunks of the scenarios. *)
Definition chunk_mb : str := str_of "MB Hauptausleger configuration".
Definition chunk_lift : str := str_of "12.0 m 8.0 m 45.0 t lift data".
Definition chunk_low_radius : str := str_of "12 m 3 m 45 t".
Definition chunk_two_triples : str := str_of "12 m 8 m 45 t 14 m 9 m 40 t".
Definition chunk_long_run : str := str_of "1150 m 8 m 45 t".
Definition chunk_load : str := str_of "LOAD jib 12 m 8 m 45 t".
Definition chunk_fallback : str := str_of "18.3 m capacity 22.0 t".
Definition chunk_plain_code : str := str_of "AB 12 m 8 m 45 t".
Definition chunk_mb_again : str := str_of "MB luffing jib 2nd table".
Definition text_repeated : str :=
  str_of "12 m 8 m 45 t one  12 m 8 m 45 t two".
Definition unknown : str := str_of "UNKNOWN".

(** The fields of a row. *)
Definition config_code (r : row) : str := let '(c, _, _, _, _) := r in c.
Definition boom_length_m (r : row) : option pyfloat := let '(_, b, _, _, _) := r in b.
Definition radius_m (r : row) : option pyfloat := let '(_, _, rd, _, _) := r in rd.
Definition capacity_t (r : row) : pyfloat := let '(_, _, _, t, _) := r in t.
Definition raw_snippet (r : row) : str := let '(_, _, _, _, s) := r in s.

(** A row whose numbers are finite and within the ranges of the filters: a
    boom length in [5, 200], a radius that is absent or in [1, 200], a
    capacity in [0.5, 5000]. *)
Definition plausible_row (r : row) : Prop :=
  (exists boom, boom_length_m r = Some boom /\ float_between 5 200 boom)
  /\ match radius_m r with
     | None => True
     | Some radius => float_between 1 200 radius
     end
  /\ float_between (1 # 2) 5000 (capacity_t r).

Section NextConfig.
Context `{UnicodeDB}.

(** [current_config] after a chunk. *)
Definition next_config (current_config part : str) : str :=
  let p := normalize part in
  if Nat.ltb (length p) 4 then current_config
  else switch_config current_config p.
End NextConfig.

(** A comma becomes a point; every other character stays. *)
Definition comma_to_point (c : N) : N := if c =? 44 then 46 else c.

(** The UTF-16 big-endian bytes of a text within the Basic Multilingual
    Plane. *)
Definition encode_utf16_be (s : str) : bytes :=
  flat_map (fun c => [c / 256; c mod 256]) s.

(** ** What a match is

    The matcher searches; the relation below says what it finds.
    [matches r st st'] holds when the pattern [r] can lead from the position
    [st] to the position [st'], whatever the order in which the matcher
    tries the ways to get there. *)

Section Iterate.
Context {A : Type} (R : A -> A -> Prop).

(** [n] steps of [R] in a row. *)
Fixpoint iterate (n : nat) (a b : A) : Prop :=
  match n with
  | O => b = a
  | S n' => exists c, R a c /\ iterate n' c b
  end.
End Iterate.

Definition within (n : nat) (hi : option nat) : Prop :=
  match hi with
  | Some h => (n <= h)%nat
  | None => True
  end.

Fixpoint matches (r : regex) (st st' : mstate) : Prop :=
  match r with
  | Eps => st' = st
  | Chr p =>
      exists c s', rest st = c :: s' /\ p c = true
                   /\ st' = MState (Some c) s' (caps st)
  | Cat r1 r2 => exists st1, matches r1 st st1 /\ matches r2 st1 st'
  | Alt r1 r2 => matches r1 st st' \/ matches r2 st st'
  | Rep _ lo hi r1 =>
      exists n, (lo <= n)%nat /\ within n hi
                /\ iterate (fun a b => matches r1 a b
                                       /\ (length (rest b) < length (rest a))%nat)
                     n st st'
  | Grp i r1 =>
      exists st1, matches r1 st st1
                  /\ st' = MState (prev st1) (rest st1)
                             ((i, consumed (rest st) (rest st1)) :: caps st1)
  | Bnd word =>
      xorb (is_word_at word (prev st)) (is_word_at word (hd_error (rest st))) = true
      /\ st' = st
  | Bos => prev st = None /\ st' = st
  end.

(** The loop of a repetition, over the matcher of its body. *)
Section RepLoop.
Variable body : mstate -> (mstate -> option mstate) -> option mstate.
Variables (greedy : bool) (lo : nat) (hi : option nat).
Variable k : mstate -> option mstate.

Fixpoint rep_loop (fuel n : nat) (st0 : mstate) {struct fuel} : option mstate :=
  match fuel with
  | O => None
  | S fuel' =>
      let again (_ : unit) :=
        if below n hi
        then body st0 (fun st1 =>
               if Nat.ltb (length (rest st1)) (length (rest st0))
               then rep_loop fuel' (S n) st1
               else None)
        else None in
      let stop (_ : unit) :=
        if Nat.leb lo n then k st0 else None in
      if greedy
      then match again tt with
           | Some res => Some res
           | None => stop tt
           end
      else match stop tt with
           | Some res => Some res
           | None => again tt
           end
  end.
End RepLoop.

(** Runs of white space become one space: what [re.sub(r"\s+", " ", s)]
    computes, written as a pass over the text.  [in_run] tells whether the
    character before was white space. *)
Fixpoint collapse (in_run : bool) (s : str) : str :=
  match s with
  | [] => []
  | c :: s' =>
      if uni_space c
      then if in_run then collapse true s' else 32 :: collapse true s'
      else c :: collapse false s'
  end.

(** Every white-space character is a space and no white space follows it. *)
Fixpoint spaced (s : str) : Prop :=
  match s with
  | [] => True
  | c :: s' =>
      (uni_space c = true ->
       c = 32 /\ match s' with
                 | d :: _ => uni_space d = false
                 | [] => True
                 end)
      /\ spaced s'
  end.

(** A text in normal form: single spaces between the words, none at the
    ends. *)
Definition single_spaced (t : str) : Prop :=
  spaced t
  /\ (forall c t', t = c :: t' -> uni_space c = false)
  /\ (forall c t', t = t' ++ [c] -> uni_space c = false).

(** ** The page count estimate *)

(** [\w] in a bytes pattern. *)
Definition ascii_word (c : N) : bool :=
  ascii_digit c || ascii_upper c || ascii_lower c || (c =? 95).

(** [/Type\s*/Page\b] *)
Definition PAGE_RE : regex :=
  seq [lits "/Type"; star bws; lits "/Page"; Bnd ascii_word].

(** The number of matches in a scan. *)
Fixpoint count_hits (ps : list piece) : nat :=
  match ps with
  | [] => O
  | Lit _ :: ps' => count_hits ps'
  | Hit _ _ _ :: ps' => S (count_hits ps')
  end.

(** [len(re.findall(rb"/Type\s*/Page\b", pdf_bytes))] *)
Definition estimate_page_count (pdf_bytes : bytes) : nat :=
  count_hits (finditer PAGE_RE pdf_bytes).

(** The least number of characters that a match of a pattern takes. *)
Fixpoint min_len (r : regex) : nat :=
  match r with
  | Eps => 0
  | Chr _ => 1
  | Cat r1 r2 => min_len r1 + min_len r2
  | Alt r1 r2 => Nat.min (min_len r1) (min_len r2)
  | Rep _ lo _ r1 => lo * min_len r1
  | Grp _ r1 => min_len r1
  | Bnd _ => 0
  | Bos => 0
  end.

(** The characters that the pieces of a scan stand for. *)
Fixpoint weight (ps : list piece) : nat :=
  match ps with
  | [] => O
  | Lit _ :: ps' => S (weight ps')
  | Hit w _ _ :: ps' => length w + weight ps'
  end.

(** What a hit of the scan stands for: a match of the pattern at some
    position of the subject, with the matched text and what follows it. *)
Definition hit_at (r : regex) (s : list N) (pc : piece) : Prop :=
  match pc with
  | Lit _ => True
  | Hit w g after =>
      exists pv pre st,
        s = pre ++ w ++ after
        /\ matches r (MState pv (w ++ after) []) st
        /\ g = caps st
        /\ rest st = after
  end.

(** A text that is not empty and has no white space at either end. *)
Definition trimmed (t : str) : Prop :=
  (exists c t', t = c :: t' /\ uni_space c = false)
  /\ (exists c t', t = t' ++ [c] /\ uni_space c = false).

(** One to four capital letters, then possibly a hyphen and one to three
    capital letters. *)
Definition code_shape (w : str) : Prop :=
  exists a b,
    w = a ++ b
    /\ Forall (fun c => ascii_upper c = true) a
    /\ (1 <= length a <= 4)%nat
    /\ (b = []
        \/ exists b', b = 45 :: b'
                      /\ Forall (fun c => ascii_upper c = true) b'
                      /\ (1 <= length b' <= 3)%nat).

(** The character before the position reached by passing over [t]. *)
Fixpoint prev_after (pv : option N) (t : list N) : option N :=
  match t with
  | [] => pv
  | c :: t' => prev_after (Some c) t'
  end.

(** A content stream that shows the text [t] with one [Tj] operator. *)
Definition show_stream (t : bytes) : bytes := str_of "(" ++ t ++ str_of ") Tj".

(** A file whose only stream object holds [body]. *)
Definition file_with_stream (body : bytes) : bytes :=
  str_of "4 0 obj stream" ++ newline ++ body ++ newline ++ str_of "endstream".

Definition hello_world : str := str_of "Hello World".

(** The texts of the matches in a scan: for [split_candidates], the
    separators between the chunks. *)
Fixpoint hit_texts (ps : list piece) : list (list N) :=
  match ps with
  | [] => []
  | Lit _ :: ps' => hit_texts ps'
  | Hit w _ _ :: ps' => w :: hit_texts ps'
  end.

Section Separators.
Context `{UnicodeDB}.

Definition separators (text : str) : list str :=
  hit_texts (finditer SPLIT_RE text).
End Separators.

(** The chunks put back around the separators. *)
Fixpoint weave (chunks seps : list (list N)) : list N :=
  match chunks, seps with
  | c :: chunks', s :: seps' => c ++ s ++ weave chunks' seps'
  | c :: _, [] => c
  | [], _ => []
  end.

(** What a scan covers of its subject. *)
Fixpoint pieces_text (ps : list piece) : list N :=
  match ps with
  | [] => []
  | Lit c :: ps' => c :: pieces_text ps'
  | Hit w _ _ :: ps' => w ++ pieces_text ps'
  end.

(** The three kinds of separator: a run of white space, and a bar or a
    hyphen between two white-space characters. *)
Definition separator_shape (w : str) : Prop :=
  ((2 <= length w)%nat /\ Forall (fun c => uni_space c = true) w)
  \/ exists a m b, w = [a; m; b] /\ uni_space a = true /\ uni_space b = true
                   /\ (m = 124 \/ m = 45).

(** ** The configuration rows of [build_database] *)

(** [a < b] on strings: by code points, a proper prefix first. *)
Fixpoint str_ltb (a b : str) : bool :=
  match a, b with
  | _, [] => false
  | [], _ :: _ => true
  | x :: a', y :: b' => (x <? y) || ((x =? y) && str_ltb a' b')
  end.

(** [p < q] on pairs of strings. *)
Definition item_ltb (p q : str * str) : bool :=
  str_ltb (fst p) (fst q) || (str_eqb (fst p) (fst q) && str_ltb (snd p) (snd q)).

(** [sorted(items)]: the order of the result does not depend on how it is
    reached, since items that compare equal are equal. *)
Fixpoint insert_item (x : str * str) (l : list (str * str)) : list (str * str) :=
  match l with
  | [] => [x]
  | y :: l' => if item_ltb x y then x :: y :: l' else y :: insert_item x l'
  end.

Fixpoint sorted_items (l : list (str * str)) : list (str * str) :=
  match l with
  | [] => []
  | x :: l' => insert_item x (sorted_items l')
  end.

Definition SENTINEL_DESCRIPTION : str :=
  str_of "Configuration not confidently identified from extracted text.".

(** [if not configs: configs = {"UNKNOWN": ...}] *)
Definition configs_or_sentinel (configs : gmap (list N) (list N))
  : gmap (list N) (list N) :=
  if decide (configs = ∅) then {[ unknown := SENTINEL_DESCRIPTION ]} else configs.

Section Rows.
Context `{UnicodeDB}.

(** The rows [(config_code, description)] that [build_database] inserts
    into [crane_configurations] for the text of a manual, in the order of
    insertion. *)
Definition configuration_rows (text : str) : list (str * str) :=
  sorted_items (map_to_list (configs_or_sentinel (extract_configurations text))).
End Rows.

(** Codes in strictly ascending order. *)
Fixpoint ascending (l : list (str * str)) : Prop :=
  match l with
  | [] => True
  | x :: l' => Forall (fun y => str_ltb (fst x) (fst y) = true) l' /\ ascending l'
  end.

(** ** File names *)

(** [s.removesuffix(suffix)] *)
Definition removesuffix (suffix s : str) : str :=
  if ends_with suffix s then firstn (length s - length suffix) s else s.

(** [s.split()]: the words between runs of white space.  [cur] is the word
    being read, reversed. *)
Fixpoint split_ws (cur : str) (s : str) : list str :=
  match s with
  | [] => match cur with
          | [] => []
          | _ => [rev cur]
          end
  | c :: s' =>
      if uni_space c
      then match cur with
           | [] => split_ws [] s'
           | _ => rev cur :: split_ws [] s'
           end
      else split_ws (c :: cur) s'
  end.

(** The [stem] of [parse_filename]. *)
Definition filename_stem (pdf_name : str) : str :=
  let stem := replace (str_of "_Load_Charts") [] (removesuffix (str_of ".pdf") pdf_name) in
  normalize (replace (str_of "_") (str_of " ") stem).

(** [parse_filename]: the manufacturer, [None] when the stem has no word,
    and the model. *)
Definition parse_filename (pdf_name : str) : option str * str :=
  let stem := filename_stem pdf_name in
  let tokens := split_ws [] stem in
  let manufacturer := match tokens with
                      | t :: _ => Some t
                      | [] => None
                      end in
  let model := if Nat.ltb 1 (length tokens)
               then join (str_of " ") (tl tokens)
               else stem in
  (manufacturer, model).

(** A text that begins and ends with white space. *)
Definition ws_edges (w : str) : Prop :=
  (exists b w', w = b :: w' /\ uni_space b = true)
  /\ (exists w' a, w = w' ++ [a] /\ uni_space a = true).

(** A piece of a text that has white space, or nothing, on either side. *)
Definition between_ws (text chunk : str) : Prop :=
  exists pre post,
    text = pre ++ chunk ++ post
    /\ (pre = [] \/ exists pre' a, pre = pre' ++ [a] /\ uni_space a = true)
    /\ (post = [] \/ exists b post', post = b :: post' /\ uni_space b = true).

(** ** Captured numbers *)

(** A pattern without capturing group. *)
Fixpoint group_free (r : regex) : bool :=
  match r with
  | Eps | Chr _ | Bnd _ | Bos => true
  | Cat r1 r2 | Alt r1 r2 => group_free r1 && group_free r2
  | Rep _ _ _ r1 => group_free r1
  | Grp _ _ => false
  end.

Section NumberShape.
Context `{UnicodeDB}.

(** In the Unicode database a decimal digit has a value below ten and is
    not white space. *)
Definition sane_digits : Prop :=
  forall c d, ext_decimal c = Some d -> d < 10 /\ uni_space c = false.

(** Digits, then possibly a point or a comma and more digits: what
    [\d{1,n}(?:[\.,]\d+)?] matches. *)
Definition number_shape (w : str) : Prop :=
  exists ip fp,
    w = ip ++ fp
    /\ ip <> []
    /\ Forall (fun c => uni_digit c = true) ip
    /\ (fp = []
        \/ exists sep fd, fp = sep :: fd /\ (sep = 46 \/ sep = 44)
                          /\ fd <> [] /\ Forall (fun c => uni_digit c = true) fd).

(** The ASCII digit for a decimal digit of any script. *)
Definition ascii_of_digit (c : N) : N :=
  match uni_decimal c with
  | Some d => 48 + d
  | None => c
  end.

(** A character of a numeral after the comma has become a point, and its
    ASCII form. *)
Definition numeral_char (c : N) : Prop := uni_digit c = true \/ c = 46.

Definition to_ascii_char (c : N) : N := if c =? 46 then 46 else ascii_of_digit c.
End NumberShape.

(** * Properties *)

Section Theory.
Context `{UnicodeDB}.

(** ** Plausibility *)

Lemma likely_value_between v lo hi :
  likely_value v lo hi = true <-> float_between lo hi v.
Proof.
  unfold likely_value, float_between, q_le_float, float_le_q.
  destruct v as [n m e | n | ].
  - rewrite andb_true_iff, !Qle_bool_iff. tauto.
  - destruct n; simpl; intuition congruence.
  - simpl. intuition congruence.
Qed.

Lemma triple_row_inv cfg p m r :
  In r (triple_row cfg p m) ->
  exists boom radius cap,
    r = (cfg, Some boom, Some radius, cap, firstn 220 p)
    /\ parse_float (fst (fst m)) = Some boom
    /\ parse_float (snd (fst m)) = Some radius
    /\ parse_float (snd m) = Some cap
    /\ float_between 5 200 boom
    /\ float_between 1 200 radius
    /\ float_between (1 # 2) 5000 cap.
Proof.
  destruct m as [[boom_s radius_s] cap_s]. unfold triple_row. simpl.
  destruct (parse_float boom_s) as [boom | ]; [ | intros []].
  destruct (parse_float radius_s) as [radius | ]; [ | intros []].
  destruct (parse_float cap_s) as [cap | ]; [ | intros []].
  destruct (likely_value boom 5 200) eqn:Hb; simpl; [ | intros []].
  destruct (likely_value radius 1 200) eqn:Hr; simpl; [ | intros []].
  destruct (likely_value cap (1 # 2) 5000) eqn:Hc; simpl; [ | intros []].
  intros [<- | []]. exists boom, radius, cap.
  rewrite <- !likely_value_between. auto 10.
Qed.

(** C1 (as the code has it): every row of the triple pattern carries the
    chunk's configuration and snippet and three parsed numbers within
    their ranges, which are [5, 200] for the boom length, [1, 200] for the
    radius and [0.5, 5000] for the capacity; and a match with a number
    that does not parse or lies outside its range gives no row. *)
Theorem C1_triple_ranges (cfg p : str) :
  Forall (fun r =>
            exists boom radius cap,
              r = (cfg, Some boom, Some radius, cap, firstn 220 p)
              /\ float_between 5 200 boom
              /\ float_between 1 200 radius
              /\ float_between (1 # 2) 5000 cap)
         (triple_points cfg p)
  /\ Forall (fun m =>
               triple_row cfg p m <> [] <->
               exists boom radius cap,
                 parse_float (fst (fst m)) = Some boom
                 /\ parse_float (snd (fst m)) = Some radius
                 /\ parse_float (snd m) = Some cap
                 /\ float_between 5 200 boom
                 /\ float_between 1 200 radius
                 /\ float_between (1 # 2) 5000 cap)
            (findall3 (finditer TRIPLE_RE p)).
Proof.
  split.
  - apply List.Forall_forall. intros r Hr. unfold triple_points in Hr.
    apply in_flat_map in Hr. destruct Hr as (m & _ & Hr).
    apply triple_row_inv in Hr.
    destruct Hr as (b & rd & c & -> & _ & _ & _ & Hb & Hrd & Hc).
    exists b, rd, c. auto.
  - apply List.Forall_forall. intros m _. split.
    + intros Hne. destruct (triple_row cfg p m) as [ | r l] eqn:E; [congruence | ].
      assert (Hin : In r (triple_row cfg p m)) by (rewrite E; left; reflexivity).
      apply triple_row_inv in Hin.
      destruct Hin as (b & rd & c & _ & Hb & Hrd & Hc & Hrest).
      exists b, rd, c. auto.
    + intros (b & rd & c & Hb & Hrd & Hc & Rb & Rrd & Rc).
      destruct m as [[boom_s radius_s] cap_s]. simpl in *.
      unfold triple_row. rewrite Hb, Hrd, Hc.
      apply likely_value_between in Rb, Rrd, Rc. rewrite Rb, Rrd, Rc.
      simpl. discriminate.
Qed.

(** ** Rows per chunk *)

Lemma triple_row_length cfg p m : (length (triple_row cfg p m) <= 1)%nat.
Proof.
  destruct m as [[boom_s radius_s] cap_s]. unfold triple_row.
  repeat match goal with
         | |- context [match ?x with _ => _ end] => destruct x
         end; simpl; lia.
Qed.

Lemma triple_points_length cfg p :
  (length (triple_points cfg p) <= length (findall3 (finditer TRIPLE_RE p)))%nat.
Proof.
  unfold triple_points.
  induction (findall3 (finditer TRIPLE_RE p)) as [ | m ms IH]; simpl.
  - lia.
  - rewrite length_app. pose proof (triple_row_length cfg p m). lia.
Qed.

Lemma fallback_points_length cfg p : (length (fallback_points cfg p) <= 1)%nat.
Proof.
  unfold fallback_points.
  repeat match goal with
         | |- context [match ?x with _ => _ end] => destruct x
         end; simpl; lia.
Qed.

Lemma load_step_chunk_points cfg points part :
  snd (load_step (cfg, points) part) = points ++ chunk_points cfg part.
Proof.
  unfold load_step, chunk_points.
  destruct (Nat.ltb (length (normalize part)) 4); simpl.
  - now rewrite app_nil_r.
  - reflexivity.
Qed.

(** C2 (as the code has it): a chunk adds to [points] the rows of the
    triple pattern followed by those of the fallback pattern; there is at
    most one row for each match of the triple pattern in the chunk and at
    most one fallback row. *)
Theorem C2_rows_per_chunk (cfg : str) (points : list row) (part : str) :
  snd (load_step (cfg, points) part) = points ++ chunk_points cfg part
  /\ (length (chunk_points cfg part)
      <= length (findall3 (finditer TRIPLE_RE (normalize part))) + 1)%nat
  /\ (length (fallback_points cfg (normalize part)) <= 1)%nat.
Proof.
  split; [apply load_step_chunk_points | ].
  split; [ | apply fallback_points_length].
  unfold chunk_points.
  destruct (Nat.ltb (length (normalize part)) 4); simpl; [lia | ].
  rewrite length_app.
  pose proof (triple_points_length (switch_config cfg (normalize part)) (normalize part)).
  pose proof (fallback_points_length (switch_config cfg (normalize part)) (normalize part)).
  lia.
Qed.
End Theory.

Section Scenarios.
Context `{UnicodeDB}.

(** C5: the chunk sequence ["MB Hauptausleger configuration",
    "12.0 m 8.0 m 45.0 t lift data"] gives the configuration mapping
    {"MB": "MB Hauptausleger configuration"} and the load point
    ("MB", 12.0, 8.0, 45.0, "12.0 m 8.0 m 45.0 t lift data"); the fallback
    pattern adds the row without radius after it.  The same holds for the
    text in which two spaces separate the chunks. *)
Theorem C5_end_to_end :
  configurations_of [chunk_mb; chunk_lift] = {[ str_of "MB" := chunk_mb ]}
  /\ In (str_of "MB", Some (float_of_Z 12), Some (float_of_Z 8), float_of_Z 45,
         chunk_lift)
        (load_points_of unknown [chunk_mb; chunk_lift])
  /\ load_points_of unknown [chunk_mb; chunk_lift]
     = [(str_of "MB", Some (float_of_Z 12), Some (float_of_Z 8), float_of_Z 45,
         chunk_lift);
        (str_of "MB", Some (float_of_Z 12), None, float_of_Z 45, chunk_lift)]
  /\ split_candidates (chunk_mb ++ str_of "  " ++ chunk_lift)
     = [chunk_mb; chunk_lift]
  /\ float_between 12 12 (float_of_Z 12)
  /\ float_between 8 8 (float_of_Z 8)
  /\ float_between 45 45 (float_of_Z 45).
Proof.
  split; [vm_compute; reflexivity | ].
  split; [vm_compute; left; reflexivity | ].
  split; [vm_compute; reflexivity | ].
  split; [vm_compute; reflexivity | ].
  repeat split; vm_compute; discriminate.
Qed.

(** C7: the capacity bounds are inclusive.  The floats of "0.5" and "5000"
    pass [likely_value(x, 0.5, 5000)] and those of "0.49" and "5000.01" do
    not, and the two patterns of the load-point extractor keep a chunk
    with the former capacities and drop one with the latter. *)
Theorem C7_capacity_bounds (cfg : str) :
  List.map parse_float
    [str_of "0.5"; str_of "5000"; str_of "0.49"; str_of "5000.01"]
  = [Some (float_of_ratio 1 2); Some (float_of_Z 5000);
     Some (float_of_ratio 49 100); Some (float_of_ratio 500001 100)]
  /\ likely_value (float_of_ratio 1 2) (1 # 2) 5000 = true
  /\ likely_value (float_of_Z 5000) (1 # 2) 5000 = true
  /\ likely_value (float_of_ratio 49 100) (1 # 2) 5000 = false
  /\ likely_value (float_of_ratio 500001 100) (1 # 2) 5000 = false
  /\ chunk_points cfg (str_of "12 m 8 m 0.5 t")
     = [(cfg, Some (float_of_Z 12), Some (float_of_Z 8), float_of_ratio 1 2,
         str_of "12 m 8 m 0.5 t");
        (cfg, Some (float_of_Z 12), None, float_of_ratio 1 2,
         str_of "12 m 8 m 0.5 t")]
  /\ chunk_points cfg (str_of "12 m 8 m 5000 t")
     = [(cfg, Some (float_of_Z 12), Some (float_of_Z 8), float_of_Z 5000,
         str_of "12 m 8 m 5000 t");
        (cfg, Some (float_of_Z 12), None, float_of_Z 5000,
         str_of "12 m 8 m 5000 t")]
  /\ chunk_points cfg (str_of "12 m 8 m 0.49 t") = []
  /\ chunk_points cfg (str_of "12 m 8 m 5000.01 t") = [].
Proof.
  repeat split; vm_compute; reflexivity.
Qed.

Lemma parse_float_None s :
  parse_float s = None
  <-> exists e, py_float (replace (str_of ",") (str_of ".") s) = Raise e.
Proof.
  unfold parse_float.
  destruct (py_float (replace (str_of ",") (str_of ".") s)) as [v | e].
  - split; [discriminate | intros [e He]; discriminate].
  - split; [exists e; reflexivity | reflexivity].
Qed.

(** C8: [parse_float] reads "12,5" and "12.5" as the same float 12.5;
    whenever [float] raises on the normalized text the result is [None];
    and a number that is [None] makes the triple pattern skip the match and
    the fallback pattern skip the number. *)
Theorem C8_parse_float :
  parse_float (str_of "12,5") = Some (float_of_ratio 25 2)
  /\ parse_float (str_of "12.5") = Some (float_of_ratio 25 2)
  /\ float_between (25 # 2) (25 # 2) (float_of_ratio 25 2)
  /\ (forall s e,
        py_float (replace (str_of ",") (str_of ".") s) = Raise e ->
        parse_float s = None)
  /\ (forall s v,
        py_float (replace (str_of ",") (str_of ".") s) = Ret v ->
        parse_float s = Some v)
  /\ (forall cfg p boom_s radius_s cap_s,
        parse_float boom_s = None \/ parse_float radius_s = None
        \/ parse_float cap_s = None ->
        triple_row cfg p (boom_s, radius_s, cap_s) = [])
  /\ (forall low high xs, plausible low high (None :: xs) = plausible low high xs).
Proof.
  split; [vm_compute; reflexivity | ].
  split; [vm_compute; reflexivity | ].
  split; [split; vm_compute; discriminate | ].
  split; [intros s e He; unfold parse_float; now rewrite He | ].
  split; [intros s v Hv; unfold parse_float; now rewrite Hv | ].
  split; [ | reflexivity].
  intros cfg p boom_s radius_s cap_s Hnone. unfold triple_row.
  destruct (parse_float boom_s); [ | reflexivity].
  destruct (parse_float radius_s); [ | reflexivity].
  destruct (parse_float cap_s); [ | reflexivity].
  destruct Hnone as [Hn | [Hn | Hn]]; discriminate.
Qed.

(** C10: in "1150 m 8 m 45 t" the meter pattern and the triple pattern
    match "150", the last three digits of the run "1150", and the
    extractor emits load points with boom length 150.0, a number that
    stands in the text only at offset 1, behind the digit 1. *)
Theorem C10_digit_run_suffix :
  findall1 (finditer NUMBER_M_RE chunk_long_run) = [str_of "150"; str_of "8"]
  /\ findall3 (finditer TRIPLE_RE chunk_long_run)
     = [(str_of "150", str_of "8", str_of "45")]
  /\ extract_load_points chunk_long_run
     = [(unknown, Some (float_of_Z 150), Some (float_of_Z 8), float_of_Z 45,
         chunk_long_run);
        (unknown, Some (float_of_Z 150), None, float_of_Z 45, chunk_long_run)]
  /\ positions (str_of "150") chunk_long_run = [1%nat]
  /\ chunk_long_run = str_of "1" ++ str_of "150 m 8 m 45 t"
  /\ float_between 150 150 (float_of_Z 150).
Proof.
  repeat split; vm_compute; try reflexivity; discriminate.
Qed.
End Scenarios.

Section Configurations.
Context `{UnicodeDB}.

Lemma str_eqb_eq a b : str_eqb a b = true <-> a = b.
Proof.
  revert b. induction a as [ | x a IH]; intros [ | y b]; simpl;
    try (split; [discriminate | discriminate]); [tauto | ].
  rewrite andb_true_iff, N.eqb_eq, IH. split.
  - intros [-> ->]. reflexivity.
  - intros [= -> ->]. auto.
Qed.

Lemma str_eqb_refl a : str_eqb a a = true.
Proof. now apply str_eqb_eq. Qed.

Lemma str_eqb_neq a b : a <> b -> str_eqb a b = false.
Proof.
  intros Hne. destruct (str_eqb a b) eqn:E; [ | reflexivity].
  apply str_eqb_eq in E. contradiction.
Qed.

Lemma first_code_not_stop codes c :
  first_code codes = Some c -> is_stop_code c = false.
Proof.
  induction codes as [ | c0 codes IH]; simpl; [discriminate | ].
  destruct (is_stop_code c0) eqn:E; [exact IH | ].
  intros [= <-]. exact E.
Qed.

(** What a chunk has to be like to offer a configuration. *)
Lemma config_of_part_inv part code descr :
  config_of_part part = Some (code, descr) ->
  descr = firstn 220 (normalize part)
  /\ (8 <= length (normalize part))%nat
  /\ existsb (fun h => contains h (lower (normalize part))) CONFIG_HINTS = true
  /\ In code (findall1 (finditer CONFIG_CODE_RE (normalize part)))
  /\ is_stop_code code = false.
Proof.
  unfold config_of_part.
  destruct (Nat.ltb (length (normalize part)) 8) eqn:Hlen; [discriminate | ].
  apply Nat.ltb_ge in Hlen.
  destruct (existsb (fun h => contains h (lower (normalize part))) CONFIG_HINTS)
    eqn:Hhint; cbn [negb]; [ | discriminate].
  destruct (findall1 (finditer CONFIG_CODE_RE (normalize part)))
    as [ | c0 codes] eqn:Hcodes; [discriminate | ].
  cbv iota beta.
  destruct (first_code (c0 :: codes)) as [[ | x c] | ] eqn:Hfirst;
    try discriminate.
  intros [= <- <-]. repeat split; auto.
  - clear Hcodes. revert Hfirst. generalize (c0 :: codes) as l.
    induction l as [ | c1 l IH]; simpl; [discriminate | ].
    destruct (is_stop_code c1); [auto | ].
    intros [= ->]. auto.
  - eapply first_code_not_stop; eassumption.
Qed.

Lemma record_config_lookup configs part code :
  record_config configs part !! code
  = match configs !! code with
    | Some d => Some d
    | None => first_offer code [part]
    end.
Proof.
  unfold record_config. simpl.
  destruct (config_of_part part) as [[c d] | ].
  - destruct (configs !! c) eqn:Hc.
    + destruct (configs !! code) eqn:Hcode; [reflexivity | ].
      rewrite str_eqb_neq; [reflexivity | congruence].
    + destruct (decide (c = code)) as [-> | Hne].
      * rewrite lookup_insert_eq, Hc, str_eqb_refl. reflexivity.
      * rewrite lookup_insert_ne by exact Hne.
        rewrite (str_eqb_neq c code Hne).
        destruct (configs !! code); reflexivity.
  - destruct (configs !! code); reflexivity.
Qed.

Lemma fold_record_config_lookup parts configs code :
  fold_left record_config parts configs !! code
  = match configs !! code with
    | Some d => Some d
    | None => first_offer code parts
    end.
Proof.
  revert configs. induction parts as [ | part parts IH]; intros configs; simpl.
  - destruct (configs !! code); reflexivity.
  - rewrite IH, record_config_lookup. simpl.
    destruct (configs !! code); [reflexivity | ].
    destruct (config_of_part part) as [[c d] | ]; [ | reflexivity].
    destruct (str_eqb c code); reflexivity.
Qed.

Lemma configurations_of_lookup parts code :
  configurations_of parts !! code = first_offer code parts.
Proof.
  unfold configurations_of. rewrite fold_record_config_lookup.
  rewrite lookup_empty. reflexivity.
Qed.

Lemma first_offer_at parts : forall i A code descr,
  nth_error parts i = Some A ->
  config_of_part A = Some (code, descr) ->
  (forall k A' d, (k < i)%nat -> nth_error parts k = Some A' ->
                  config_of_part A' <> Some (code, d)) ->
  first_offer code parts = Some descr.
Proof.
  induction parts as [ | part parts IH]; intros i A code descr Hi HA Hfirst.
  - destruct i; discriminate.
  - destruct i as [ | i]; simpl in Hi.
    + injection Hi as ->. simpl. rewrite HA, str_eqb_refl. reflexivity.
    + simpl.
      assert (Hrest : first_offer code parts = Some descr).
      { apply (IH i A); auto. intros k A' d Hk HA'.
        apply (Hfirst (S k)); [lia | exact HA']. }
      destruct (config_of_part part) as [[c d] | ] eqn:Hpart; [ | exact Hrest].
      destruct (str_eqb c code) eqn:Hc; [ | exact Hrest].
      apply str_eqb_eq in Hc. subst c.
      exfalso. apply (Hfirst O part d); [lia | reflexivity | exact Hpart].
Qed.

Lemma first_offer_In parts code descr :
  first_offer code parts = Some descr ->
  exists part, In part parts /\ config_of_part part = Some (code, descr).
Proof.
  induction parts as [ | part parts IH]; simpl; [discriminate | ].
  destruct (config_of_part part) as [[c d] | ] eqn:Hpart.
  - destruct (str_eqb c code) eqn:Hc.
    + apply str_eqb_eq in Hc. subst c. intros [= ->]. exists part. auto.
    + intros Hr. destruct (IH Hr) as (q & Hq & Hcq). exists q. auto.
  - intros Hr. destruct (IH Hr) as (q & Hq & Hcq). exists q. auto.
Qed.

(** C6: when the chunks at two indices [i < j] both yield the code and no
    chunk before [i] does, the configuration extractor stores for that
    code the text of the chunk at [i] cut to 220 characters; and a chunk
    never changes the description of a code that is already recorded.
    [extract_configurations] runs this loop on the chunks of the text. *)
Theorem C6_first_chunk_wins (parts : list str) (i j : nat) (A B code dA dB : str) :
  (i < j)%nat ->
  nth_error parts i = Some A ->
  nth_error parts j = Some B ->
  config_of_part A = Some (code, dA) ->
  config_of_part B = Some (code, dB) ->
  (forall k A' d, (k < i)%nat -> nth_error parts k = Some A' ->
                  config_of_part A' <> Some (code, d)) ->
  configurations_of parts !! code = Some (firstn 220 (normalize A))
  /\ (forall configs part d,
        configs !! code = Some d -> record_config configs part !! code = Some d)
  /\ (forall text, extract_configurations text
                   = configurations_of (split_candidates text)).
Proof.
  intros Hij Hi Hj HA HB Hfirst.
  split; [ | split].
  - rewrite configurations_of_lookup.
    destruct (config_of_part_inv A code dA HA) as (<- & _).
    exact (first_offer_at parts i A code dA Hi HA Hfirst).
  - intros configs part d Hd. rewrite record_config_lookup, Hd. reflexivity.
  - reflexivity.
Qed.

Lemma switch_config_code cfg p g :
  rx_match_start CODE_START_RE p = Some g -> switch_config cfg p = group 1 g.
Proof. unfold switch_config. now intros ->. Qed.

Lemma stop_code_never_recorded parts code :
  is_stop_code code = true -> configurations_of parts !! code = None.
Proof.
  intros Hstop. rewrite configurations_of_lookup.
  destruct (first_offer code parts) as [d | ] eqn:E; [ | reflexivity].
  apply first_offer_In in E. destruct E as (part & _ & Hpart).
  apply config_of_part_inv in Hpart. destruct Hpart as (_ & _ & _ & _ & Hns).
  congruence.
Qed.

(** C9: the configuration switch takes the leading code token of any
    chunk of at least four characters, whatever the token and without
    looking for a configuration hint, whereas the configuration extractor
    never records a stop-list token.  So "LOAD jib 12 m 8 m 45 t" gives
    load points of configuration "LOAD" and "AB 12 m 8 m 45 t" load points
    of configuration "AB", and neither text gives a configuration. *)
Theorem C9_switch_without_filters :
  (forall cfg points part g,
      (4 <= length (normalize part))%nat ->
      rx_match_start CODE_START_RE (normalize part) = Some g ->
      fst (load_step (cfg, points) part) = group 1 g)
  /\ (forall text code,
        is_stop_code code = true -> extract_configurations text !! code = None)
  /\ is_stop_code (str_of "LOAD") = true
  /\ is_stop_code (str_of "TON") = true
  /\ extract_load_points chunk_load
     = [(str_of "LOAD", Some (float_of_Z 12), Some (float_of_Z 8),
         float_of_Z 45, chunk_load);
        (str_of "LOAD", Some (float_of_Z 12), None, float_of_Z 45, chunk_load)]
  /\ extract_configurations chunk_load = ∅
  /\ extract_load_points chunk_plain_code
     = [(str_of "AB", Some (float_of_Z 12), Some (float_of_Z 8),
         float_of_Z 45, chunk_plain_code);
        (str_of "AB", Some (float_of_Z 12), None, float_of_Z 45,
         chunk_plain_code)]
  /\ extract_configurations chunk_plain_code = ∅
  /\ switch_config unknown (str_of "TON 8 m 2 t") = str_of "TON".
Proof.
  split.
  { intros cfg points part g Hlen Hg. unfold load_step.
    apply Nat.ltb_ge in Hlen. rewrite Hlen. cbn [fst].
    now apply switch_config_code. }
  split.
  { intros text code Hstop. now apply stop_code_never_recorded. }
  repeat split; vm_compute; reflexivity.
Qed.
End Configurations.

(** ** De-duplication *)

Section Dedup.
Lemma float_eqb_sym a b : float_eqb a b = float_eqb b a.
Proof.
  destruct a as [n1 m1 e1 | n1 | ], b as [n2 m2 e2 | n2 | ]; simpl; try reflexivity.
  - destruct (Qeq_bool (fin_val n1 m1 e1) (fin_val n2 m2 e2)) eqn:E1,
             (Qeq_bool (fin_val n2 m2 e2) (fin_val n1 m1 e1)) eqn:E2;
      try reflexivity.
    + apply Qeq_bool_iff, Qeq_sym, Qeq_bool_iff in E1. congruence.
    + apply Qeq_bool_iff, Qeq_sym, Qeq_bool_iff in E2. congruence.
  - destruct n1, n2; reflexivity.
Qed.

Lemma float_eqb_trans a b c :
  float_eqb a b = true -> float_eqb b c = true -> float_eqb a c = true.
Proof.
  destruct a as [n1 m1 e1 | n1 | ], b as [n2 m2 e2 | n2 | ],
           c as [n3 m3 e3 | n3 | ]; simpl; try discriminate.
  - rewrite !Qeq_bool_iff. apply Qeq_trans.
  - destruct n1, n2, n3; simpl; auto.
Qed.

Lemma opt_float_eqb_sym a b : opt_float_eqb a b = opt_float_eqb b a.
Proof. destruct a, b; simpl; auto using float_eqb_sym. Qed.

Lemma opt_float_eqb_trans a b c :
  opt_float_eqb a b = true -> opt_float_eqb b c = true ->
  opt_float_eqb a c = true.
Proof.
  destruct a, b, c; simpl; try discriminate; eauto using float_eqb_trans.
Qed.

Lemma str_eqb_sym a b : str_eqb a b = str_eqb b a.
Proof.
  revert b. induction a as [ | x a IH]; intros [ | y b]; simpl; try reflexivity.
  now rewrite IH, N.eqb_sym.
Qed.

Lemma str_eqb_trans a b c :
  str_eqb a b = true -> str_eqb b c = true -> str_eqb a c = true.
Proof.
  revert b c. induction a as [ | x a IH]; intros [ | y b] [ | z c]; simpl;
    try discriminate; auto.
  rewrite !andb_true_iff, !N.eqb_eq. intros [-> Hab] [-> Hbc]. eauto.
Qed.

Lemma key_eqb_sym a b : key_eqb a b = key_eqb b a.
Proof.
  destruct a as [[[c1 b1] r1] t1], b as [[[c2 b2] r2] t2]. simpl.
  now rewrite (str_eqb_sym c1), (opt_float_eqb_sym b1), (opt_float_eqb_sym r1),
    (float_eqb_sym t1).
Qed.

Lemma key_eqb_trans a b c :
  key_eqb a b = true -> key_eqb b c = true -> key_eqb a c = true.
Proof.
  destruct a as [[[c1 b1] r1] t1], b as [[[c2 b2] r2] t2],
           c as [[[c3 b3] r3] t3]. simpl.
  rewrite !andb_true_iff.
  intros [[[Hc Hb] Hr] Ht] [[[Hc' Hb'] Hr'] Ht'].
  eauto 10 using str_eqb_trans, opt_float_eqb_trans, float_eqb_trans.
Qed.

Lemma seen_related k r seen :
  has_key k r = true ->
  existsb (key_eqb (key_of r)) seen = existsb (fun s => key_eqb s k) seen.
Proof.
  unfold has_key. intros Hk.
  induction seen as [ | s seen IH]; simpl; [reflexivity | ].
  rewrite IH. f_equal.
  destruct (key_eqb (key_of r) s) eqn:E1, (key_eqb s k) eqn:E2; try reflexivity.
  - rewrite key_eqb_sym in E1.
    rewrite (key_eqb_trans _ _ _ E1 Hk) in E2. discriminate.
  - rewrite key_eqb_sym in E2.
    rewrite (key_eqb_trans _ _ _ Hk E2) in E1. discriminate.
Qed.

(** Of the rows with key [k], the output holds the first one of [points],
    unless the key was seen before. *)
Lemma dedup_filter k points : forall seen,
  List.filter (has_key k) (dedup seen points)
  = if existsb (fun s => key_eqb s k) seen then []
    else match find (has_key k) points with
         | Some r0 => [r0]
         | None => []
         end.
Proof.
  induction points as [ | r points IH]; intros seen; simpl.
  - destruct (existsb _ seen); reflexivity.
  - destruct (has_key k r) eqn:Hk.
    + rewrite (seen_related k r seen Hk).
      destruct (existsb (fun s => key_eqb s k) seen) eqn:Hseen.
      * rewrite IH, Hseen. reflexivity.
      * simpl. rewrite Hk, IH. simpl.
        unfold has_key in Hk. rewrite Hk. reflexivity.
    + destruct (existsb (key_eqb (key_of r)) seen).
      * apply IH.
      * simpl. rewrite Hk, IH. simpl.
        unfold has_key in Hk. rewrite Hk. reflexivity.
Qed.

Lemma dedup_unseen points : forall seen,
  Forall (fun r => existsb (key_eqb (key_of r)) seen = false) (dedup seen points).
Proof.
  induction points as [ | r points IH]; intros seen; simpl.
  - constructor.
  - destruct (existsb (key_eqb (key_of r)) seen) eqn:E; [apply IH | ].
    constructor; [exact E | ].
    eapply List.Forall_impl; [ | apply (IH (key_of r :: seen))].
    intros r' Hr'. simpl in Hr'. apply orb_false_iff in Hr'. tauto.
Qed.

Lemma dedup_pairwise points : forall seen,
  ForallOrdPairs (fun a b => key_eqb (key_of a) (key_of b) = false)
    (dedup seen points).
Proof.
  induction points as [ | r points IH]; intros seen; simpl.
  - constructor.
  - destruct (existsb (key_eqb (key_of r)) seen); [apply IH | ].
    constructor; [ | apply IH].
    eapply List.Forall_impl; [ | apply (dedup_unseen points (key_of r :: seen))].
    intros r' Hr'. simpl in Hr'. apply orb_false_iff in Hr'.
    rewrite key_eqb_sym. tauto.
Qed.

Lemma ordpairs_nth {A} (R : A -> A -> Prop) l :
  ForallOrdPairs R l ->
  forall i j x y, (i < j)%nat ->
    nth_error l i = Some x -> nth_error l j = Some y -> R x y.
Proof.
  induction 1 as [ | a l Ha Hl IH]; intros i j x y Hij Hi Hj.
  - destruct i; discriminate.
  - destruct j as [ | j]; [lia | ]. simpl in Hj.
    destruct i as [ | i]; simpl in Hi.
    + injection Hi as <-.
      rewrite List.Forall_forall in Ha. apply Ha.
      eapply nth_error_In; eassumption.
    + apply (IH i j); [lia | assumption | assumption].
Qed.

Lemma find_pointwise {A} (f g : A -> bool) l :
  (forall x, f x = g x) -> find f l = find g l.
Proof.
  intros Hfg. induction l as [ | a l IH]; simpl; [reflexivity | ].
  now rewrite Hfg, IH.
Qed.

Lemma find_nth (f : row -> bool) l : forall j r,
  nth_error l j = Some r -> f r = true ->
  exists i r0, (i <= j)%nat /\ nth_error l i = Some r0 /\ find f l = Some r0
               /\ f r0 = true
               /\ forall k r', (k < i)%nat -> nth_error l k = Some r' -> f r' = false.
Proof.
  induction l as [ | a l IH]; intros j r Hj Hf.
  - destruct j; discriminate.
  - simpl. destruct (f a) eqn:Ha.
    + exists O, a. repeat split; auto; [lia | intros k r' Hk; lia].
    + destruct j as [ | j]; simpl in Hj; [congruence | ].
      destruct (IH j r Hj Hf) as (i & r0 & Hle & Hi & Hfind & Hr0 & Hmin).
      exists (S i), r0. repeat split; auto; [lia | ].
      intros [ | k] r' Hk Hr'; simpl in Hr'; [congruence | ].
      apply (Hmin k); [lia | assumption].
Qed.
End Dedup.

Section LoadPoints.
Context `{UnicodeDB}.

(** C4: the list returned by the load-point extractor holds no two rows
    with equal (config_code, boom_length_m, radius_m, capacity_t); and
    when two rows collected from the chunks have equal tuples, the output
    holds exactly one row with that tuple, namely the first row of the
    collection that has it, snippet included. *)
Theorem C4_deduplication (text : str) :
  let points := snd (collect_points unknown (split_candidates text)) in
  let unique := extract_load_points text in
  unique = dedup [] points
  /\ (forall i j r1 r2,
        i <> j -> nth_error unique i = Some r1 -> nth_error unique j = Some r2 ->
        key_eqb (key_of r1) (key_of r2) = false)
  /\ (forall i j r1 r2,
        (i < j)%nat ->
        nth_error points i = Some r1 -> nth_error points j = Some r2 ->
        key_eqb (key_of r1) (key_of r2) = true ->
        exists i0 r0,
          (i0 <= i)%nat
          /\ nth_error points i0 = Some r0
          /\ key_eqb (key_of r0) (key_of r1) = true
          /\ (forall k r', (k < i0)%nat -> nth_error points k = Some r' ->
                           key_eqb (key_of r') (key_of r1) = false)
          /\ List.filter (has_key (key_of r1)) unique = [r0]
          /\ List.filter (has_key (key_of r2)) unique = [r0]
          /\ In r0 unique).
Proof.
  intros points unique.
  split; [reflexivity | ].
  split.
  - intros i j r1 r2 Hij Hi Hj.
    pose proof (dedup_pairwise points []) as Hpw.
    fold unique in Hpw. change (dedup [] points) with unique in Hpw.
    destruct (Nat.lt_ge_cases i j) as [Hlt | Hge].
    + exact (ordpairs_nth _ _ Hpw i j r1 r2 Hlt Hi Hj).
    + rewrite key_eqb_sym.
      assert (Hlt : (j < i)%nat) by lia.
      exact (ordpairs_nth _ _ Hpw j i r2 r1 Hlt Hj Hi).
  - intros i j r1 r2 Hij Hi Hj Heq.
    assert (Hrefl : has_key (key_of r1) r1 = true).
    { unfold has_key. apply (key_eqb_trans _ _ _ Heq).
      rewrite key_eqb_sym. exact Heq. }
    destruct (find_nth (has_key (key_of r1)) points i r1 Hi Hrefl)
      as (i0 & r0 & Hle & Hi0 & Hfind & Hr0 & Hmin).
    assert (Hf1 : List.filter (has_key (key_of r1)) unique = [r0]).
    { change unique with (dedup [] points).
      rewrite dedup_filter. simpl. rewrite Hfind. reflexivity. }
    exists i0, r0. repeat split; auto.
    + change unique with (dedup [] points).
      rewrite dedup_filter. simpl.
      assert (Hsame : forall r, has_key (key_of r2) r = has_key (key_of r1) r).
      { intros r. unfold has_key.
        destruct (key_eqb (key_of r) (key_of r2)) eqn:E2,
                 (key_eqb (key_of r) (key_of r1)) eqn:E1; try reflexivity.
        - rewrite key_eqb_sym in Heq.
          rewrite (key_eqb_trans _ _ _ E2 Heq) in E1. discriminate.
        - rewrite (key_eqb_trans _ _ _ E1 Heq) in E2. discriminate. }
      rewrite (find_pointwise _ _ points Hsame), Hfind. reflexivity.
    + assert (Hin : In r0 (List.filter (has_key (key_of r1)) unique))
        by (rewrite Hf1; left; reflexivity).
      apply filter_In in Hin. tauto.
Qed.
End LoadPoints.

(** ** The decoder on files without text *)

Section NoText.
Variable zlib_decompress : bytes -> exc bytes.
Context `{UnicodeDB}.

Lemma texts_of_stream_none stream :
  is_text_stream zlib_decompress stream = false ->
  texts_of_stream zlib_decompress stream = [].
Proof.
  unfold is_text_stream, texts_of_stream.
  destruct (zlib_decompress stream) as [decoded | e]; [ | reflexivity].
  now intros ->.
Qed.

Lemma no_chunks streams :
  Forall (fun s => is_text_stream zlib_decompress s = false) streams ->
  flat_map (texts_of_stream zlib_decompress) streams = [].
Proof.
  induction 1 as [ | s streams Hs _ IH]; simpl; [reflexivity | ].
  now rewrite (texts_of_stream_none s Hs), IH.
Qed.

(** C3: the functions of the core are total, and what [zlib.decompress]
    and [float] raise is caught where it is raised: a candidate on which
    [zlib.decompress] raises adds nothing.  When no candidate stream of
    the file inflates to content with a text-showing operator, the decoder
    returns the empty text, and the extractors return the empty mapping and
    the empty list for it. *)
Theorem C3_no_text_stream (data : bytes) :
  Forall (fun s => is_text_stream zlib_decompress s = false)
         (candidate_streams data) ->
  extract_pdf_text zlib_decompress data = []
  /\ core zlib_decompress data = ([], ∅, [])
  /\ (forall stream e,
        zlib_decompress stream = Raise e ->
        texts_of_stream zlib_decompress stream = []).
Proof.
  intros Hnone.
  assert (Htext : extract_pdf_text zlib_decompress data = []).
  { unfold extract_pdf_text. rewrite (no_chunks _ Hnone). reflexivity. }
  split; [exact Htext | ].
  split.
  - unfold core. rewrite Htext. vm_compute. reflexivity.
  - intros stream e He. unfold texts_of_stream. now rewrite He.
Qed.
End NoText.

(** * Instances of the statements on concrete inputs *)

Section Concrete.
#[local] Existing Instance latin1_db.

(** The radius of a triple may lie below 5: "12 m 3 m 45 t" gives a row
    with radius 3.0. *)
Lemma C1_radius_below_five :
  ~ (forall cfg p,
        Forall (fun r =>
                  exists boom radius cap,
                    r = (cfg, Some boom, Some radius, cap, firstn 220 p)
                    /\ float_between 5 200 boom
                    /\ float_between 5 200 radius
                    /\ float_between (1 # 2) 5000 cap)
               (triple_points cfg p)).
Proof.
  intros Hall. specialize (Hall unknown chunk_low_radius).
  assert (E : triple_points unknown chunk_low_radius
              = [(unknown, Some (float_of_Z 12), Some (float_of_Z 3),
                  float_of_Z 45, chunk_low_radius)])
    by (vm_compute; reflexivity).
  rewrite E in Hall. inversion Hall as [ | r l Hr _]. subst.
  destruct Hr as (boom & radius & cap & Heq & _ & Hradius & _).
  injection Heq as _ <- _.
  destruct Hradius as [Hlow _]. vm_compute in Hlow. apply Hlow. reflexivity.
Qed.

Lemma C1_triple_ranges_witness :
  triple_points unknown chunk_lift
  = [(unknown, Some (float_of_Z 12), Some (float_of_Z 8), float_of_Z 45,
      chunk_lift)]
  /\ Forall (fun r =>
               exists boom radius cap,
                 r = (unknown, Some boom, Some radius, cap, firstn 220 chunk_lift)
                 /\ float_between 5 200 boom
                 /\ float_between 1 200 radius
                 /\ float_between (1 # 2) 5000 cap)
            (triple_points unknown chunk_lift).
Proof.
  split; [vm_compute; reflexivity | ].
  exact (proj1 (C1_triple_ranges unknown chunk_lift)).
Defined.

(** A chunk with two triples gives three rows. *)
Lemma C2_three_rows_from_one_chunk :
  ~ (forall cfg part, (length (chunk_points cfg part) <= 2)%nat).
Proof.
  intros Hall. specialize (Hall unknown chunk_two_triples).
  vm_compute in Hall. lia.
Qed.

Lemma C2_rows_per_chunk_witness :
  length (chunk_points unknown chunk_two_triples) = 3%nat
  /\ length (findall3 (finditer TRIPLE_RE (normalize chunk_two_triples))) = 2%nat
  /\ (length (chunk_points unknown chunk_two_triples)
      <= length (findall3 (finditer TRIPLE_RE (normalize chunk_two_triples))) + 1)%nat.
Proof.
  split; [vm_compute; reflexivity | ].
  split; [vm_compute; reflexivity | ].
  exact (proj1 (proj2 (C2_rows_per_chunk unknown [] chunk_two_triples))).
Defined.

Lemma C3_no_text_stream_witness :
  candidate_streams file_without_text
  = [str_of "xBT 1 0 0 RG ET";
     str_of "2 0 obj stream" ++ newline ++ str_of "plain bytes";
     str_of "plain bytes"]
  /\ extract_pdf_text toy_decompress file_without_text = []
  /\ core toy_decompress file_without_text = ([], ∅, []).
Proof.
  split; [vm_compute; reflexivity | ].
  assert (Hnone : Forall (fun s => is_text_stream toy_decompress s = false)
                    (candidate_streams file_without_text)).
  { apply List.Forall_forall. intros s Hs. vm_compute in Hs.
    destruct Hs as [<- | [<- | [<- | []]]]; vm_compute; reflexivity. }
  destruct (C3_no_text_stream toy_decompress file_without_text Hnone)
    as (Htext & Hcore & _).
  split; [exact Htext | exact Hcore].
Defined.

Lemma C4_deduplication_witness :
  List.filter (has_key (str_of "UNKNOWN", Some (float_of_Z 12),
                        Some (float_of_Z 8), float_of_Z 45))
    (extract_load_points text_repeated)
  = [(unknown, Some (float_of_Z 12), Some (float_of_Z 8), float_of_Z 45,
      str_of "12 m 8 m 45 t one")].
Proof.
  destruct (C4_deduplication text_repeated) as (_ & _ & Hfirst).
  destruct (Hfirst 0%nat 2%nat
              (unknown, Some (float_of_Z 12), Some (float_of_Z 8),
               float_of_Z 45, str_of "12 m 8 m 45 t one")
              (unknown, Some (float_of_Z 12), Some (float_of_Z 8),
               float_of_Z 45, str_of "12 m 8 m 45 t two"))
    as (i0 & r0 & Hle & Hi0 & _ & _ & Hf & _ & _).
  - lia.
  - vm_compute. reflexivity.
  - vm_compute. reflexivity.
  - vm_compute. reflexivity.
  - assert (Hz : i0 = 0%nat) by lia. subst i0.
    vm_compute in Hi0. injection Hi0 as <-. exact Hf.
Defined.

Lemma C6_first_chunk_wins_witness :
  configurations_of [chunk_mb; chunk_lift; chunk_mb_again] !! str_of "MB"
  = Some chunk_mb.
Proof.
  refine (proj1 (C6_first_chunk_wins [chunk_mb; chunk_lift; chunk_mb_again]
                   0 2 chunk_mb chunk_mb_again (str_of "MB")
                   chunk_mb chunk_mb_again _ _ _ _ _ _)).
  - lia.
  - reflexivity.
  - reflexivity.
  - vm_compute. reflexivity.
  - vm_compute. reflexivity.
  - intros k A' d Hk. lia.
Defined.

Lemma C8_parse_float_witness :
  py_float (replace (str_of ",") (str_of ".") (str_of "12,5x")) = Raise ValueError
  /\ parse_float (str_of "12,5x") = None.
Proof.
  assert (Hraise : py_float (replace (str_of ",") (str_of ".") (str_of "12,5x"))
                   = Raise ValueError) by (vm_compute; reflexivity).
  split; [exact Hraise | ].
  destruct C8_parse_float as (_ & _ & _ & Hnone & _).
  exact (Hnone (str_of "12,5x") ValueError Hraise).
Defined.

Lemma C9_switch_without_filters_witness :
  fst (load_step (unknown, []) chunk_load) = str_of "LOAD".
Proof.
  destruct C9_switch_without_filters as (Hswitch & _).
  refine (Hswitch unknown [] chunk_load [(1%nat, str_of "LOAD")] _ _).
  - vm_compute. lia.
  - vm_compute. reflexivity.
Defined.
End Concrete.

(** * Further properties of the extractors *)

Section RowInvariants.
Context `{UnicodeDB}.

Lemma between_finite lo hi v :
  float_between lo hi v -> exists n m e, v = FFin n m e.
Proof. destruct v as [n m e | n | ]; simpl; [eauto | tauto | tauto]. Qed.

Lemma plausible_In lo hi xs x :
  In x (plausible lo hi xs) -> float_between lo hi x /\ In (Some x) xs.
Proof.
  induction xs as [ | [y | ] xs IH]; simpl; [tauto | | ].
  - destruct (likely_value y lo hi) eqn:E.
    + intros [<- | Hin].
      * split; [now apply likely_value_between | auto].
      * destruct (IH Hin). auto.
    + intros Hin. destruct (IH Hin). auto.
  - intros Hin. destruct (IH Hin). auto.
Qed.

Lemma fallback_points_inv cfg p r :
  In r (fallback_points cfg p) ->
  exists m0 t0,
    r = (cfg, Some m0, None, t0, firstn 220 p)
    /\ float_between 5 200 m0
    /\ float_between (1 # 2) 5000 t0.
Proof.
  unfold fallback_points.
  destruct (plausible 5 200 _) as [ | m0 ms] eqn:Hm; [intros [] | ].
  destruct (plausible (1 # 2) 5000 _) as [ | t0 ts] eqn:Ht; [intros [] | ].
  intros [<- | []]. exists m0, t0. split; [reflexivity | ]. split.
  - eapply plausible_In. rewrite Hm. left. reflexivity.
  - eapply plausible_In. rewrite Ht. left. reflexivity.
Qed.

Lemma chunk_points_inv cfg part r :
  In r (chunk_points cfg part) ->
  (4 <= length (normalize part))%nat
  /\ config_code r = next_config cfg part
  /\ raw_snippet r = firstn 220 (normalize part)
  /\ plausible_row r.
Proof.
  unfold chunk_points, next_config.
  destruct (Nat.ltb (length (normalize part)) 4) eqn:Hlen; [intros [] | ].
  apply Nat.ltb_ge in Hlen. intros Hin. apply in_app_or in Hin.
  destruct Hin as [Hin | Hin].
  - unfold triple_points in Hin. apply in_flat_map in Hin.
    destruct Hin as (m & _ & Hin). apply triple_row_inv in Hin.
    destruct Hin as (b & rd & c & -> & _ & _ & _ & Hb & Hrd & Hc).
    unfold plausible_row. simpl. eauto 10.
  - apply fallback_points_inv in Hin.
    destruct Hin as (m0 & t0 & -> & Hm & Ht).
    unfold plausible_row. simpl. eauto 10.
Qed.

Lemma load_step_eq cfg points part :
  load_step (cfg, points) part
  = (next_config cfg part, points ++ chunk_points cfg part).
Proof.
  unfold load_step, next_config, chunk_points.
  destruct (Nat.ltb (length (normalize part)) 4).
  - now rewrite app_nil_r.
  - reflexivity.
Qed.

(** An invariant [I] of [current_config] and a property [P] of the rows
    carry through the loop over the chunks. *)
Lemma fold_load_step_inv (I : str -> Prop) (P : row -> Prop) parts :
  (forall cfg part, In part parts -> I cfg -> I (next_config cfg part)) ->
  (forall cfg part r, In part parts -> I cfg -> In r (chunk_points cfg part) -> P r) ->
  forall cfg points, I cfg -> Forall P points ->
    I (fst (fold_left load_step parts (cfg, points)))
    /\ Forall P (snd (fold_left load_step parts (cfg, points))).
Proof.
  induction parts as [ | part parts IH]; intros HI HP cfg points Hcfg Hpts;
    cbn [fold_left].
  - auto.
  - rewrite load_step_eq. apply IH.
    + intros c q Hq. apply HI. now right.
    + intros c q r Hq. apply HP. now right.
    + apply HI; [now left | exact Hcfg].
    + apply Forall_app. split; [exact Hpts | ].
      apply List.Forall_forall. intros r Hr.
      apply (HP cfg part); [now left | exact Hcfg | exact Hr].
Qed.

Lemma dedup_sublist points : forall seen, sublist (dedup seen points) points.
Proof.
  induction points as [ | r points IH]; intros seen; simpl.
  - constructor.
  - destruct (existsb (key_eqb (key_of r)) seen).
    + apply sublist_cons, IH.
    + apply sublist_skip, IH.
Qed.

Lemma dedup_In points r : forall seen, In r (dedup seen points) -> In r points.
Proof.
  induction points as [ | a points IH]; intros seen; simpl; [tauto | ].
  destruct (existsb (key_eqb (key_of a)) seen).
  - intros Hin. right. eapply IH, Hin.
  - intros [-> | Hin]; [now left | right; eapply IH, Hin].
Qed.

Lemma firstn_length_le {A} n (l : list A) : (length (firstn n l) <= n)%nat.
Proof. rewrite length_firstn. lia. Qed.

(** X1: every load point returned for a text has a boom length in
    [5, 200], a radius that is absent or in [1, 200] and a capacity in
    [0.5, 5000], all finite; its snippet has at most 220 characters and is
    the start of the normalized form of a chunk of the text that has at
    least four characters. *)
Theorem X1_load_point_invariant (text : str) :
  Forall (fun r =>
            plausible_row r
            /\ (length (raw_snippet r) <= 220)%nat
            /\ exists part,
                 In part (split_candidates text)
                 /\ (4 <= length (normalize part))%nat
                 /\ raw_snippet r = firstn 220 (normalize part))
         (extract_load_points text).
Proof.
  unfold extract_load_points, extract_load_points_from, load_points_of,
    collect_points.
  set (P := fun r : row =>
              plausible_row r
              /\ (length (raw_snippet r) <= 220)%nat
              /\ exists part,
                   In part (split_candidates text)
                   /\ (4 <= length (normalize part))%nat
                   /\ raw_snippet r = firstn 220 (normalize part)).
  assert (Hall : Forall P (snd (fold_left load_step (split_candidates text)
                                  (unknown, [])))).
  { apply (fold_load_step_inv (fun _ => True) P); auto.
    intros cfg part r Hpart _ Hr. apply chunk_points_inv in Hr.
    destruct Hr as (Hlen & _ & Hsnip & Hpl).
    split; [exact Hpl | ]. split.
    - rewrite Hsnip. apply firstn_length_le.
    - exists part. auto. }
  apply List.Forall_forall. intros r Hr.
  apply dedup_In in Hr. rewrite List.Forall_forall in Hall. auto.
Qed.

(** X2: the configuration of every load point is the default or the
    leading code token of a chunk of at least four characters; the chunk's
    token is taken whatever follows it. *)
Theorem X2_config_code_origin (default_config : str) (parts : list str) :
  Forall (fun r =>
            config_code r = default_config
            \/ exists part g,
                 In part parts
                 /\ (4 <= length (normalize part))%nat
                 /\ rx_match_start CODE_START_RE (normalize part) = Some g
                 /\ config_code r = group 1 g)
         (load_points_of default_config parts).
Proof.
  unfold load_points_of, collect_points.
  set (I := fun c : str =>
              c = default_config
              \/ exists part g,
                   In part parts
                   /\ (4 <= length (normalize part))%nat
                   /\ rx_match_start CODE_START_RE (normalize part) = Some g
                   /\ c = group 1 g).
  assert (Hstep : forall cfg part, In part parts -> I cfg -> I (next_config cfg part)).
  { intros cfg part Hpart Hcfg. unfold next_config.
    destruct (Nat.ltb (length (normalize part)) 4) eqn:Hlen; [exact Hcfg | ].
    apply Nat.ltb_ge in Hlen. unfold switch_config.
    destruct (rx_match_start CODE_START_RE (normalize part)) as [g | ] eqn:Hg;
      [ | exact Hcfg].
    right. exists part, g. auto. }
  assert (Hall : Forall (fun r => I (config_code r))
                   (snd (fold_left load_step parts (default_config, [])))).
  { apply (fold_load_step_inv I (fun r => I (config_code r))); auto.
    - intros cfg part r Hpart Hcfg Hr. apply chunk_points_inv in Hr.
      destruct Hr as (_ & -> & _). now apply Hstep.
    - now left. }
  apply List.Forall_forall. intros r Hr.
  apply dedup_In in Hr. rewrite List.Forall_forall in Hall. now apply Hall.
Qed.
End RowInvariants.

Section DedupMore.
Context `{UnicodeDB}.

Lemma plausible_key_refl r : plausible_row r -> key_eqb (key_of r) (key_of r) = true.
Proof.
  destruct r as [[[[c b] rd] t] s]. unfold plausible_row. simpl.
  intros ((boom & -> & Hb) & Hrd & Ht).
  apply between_finite in Hb. destruct Hb as (n & m & e & ->).
  apply between_finite in Ht. destruct Ht as (n' & m' & e' & ->).
  rewrite str_eqb_refl. simpl.
  assert (Hq : forall q, Qeq_bool q q = true)
    by (intros q; apply Qeq_bool_iff; reflexivity).
  rewrite !Hq. simpl.
  destruct rd as [radius | ]; simpl; [ | reflexivity].
  apply between_finite in Hrd. destruct Hrd as (n2 & m2 & e2 & ->).
  simpl. now rewrite Hq.
Qed.

Lemma collected_plausible cfg parts :
  Forall plausible_row (snd (collect_points cfg parts)).
Proof.
  unfold collect_points.
  apply (fold_load_step_inv (fun _ => True) plausible_row); auto.
  intros c part r _ _ Hr. apply chunk_points_inv in Hr. tauto.
Qed.

Lemma dedup_fixed l : forall seen,
  ForallOrdPairs (fun a b => key_eqb (key_of a) (key_of b) = false) l ->
  Forall (fun r => existsb (key_eqb (key_of r)) seen = false) l ->
  dedup seen l = l.
Proof.
  induction l as [ | r l IH]; intros seen Hpairs Hseen; simpl; [reflexivity | ].
  inversion Hpairs as [ | a l' Hr Hl]. subst.
  inversion Hseen as [ | a l' Hr' Hl']. subst.
  rewrite Hr'. f_equal. apply IH; [exact Hl | ].
  rewrite List.Forall_forall in *. intros r' Hin. simpl.
  rewrite (key_eqb_sym (key_of r') (key_of r)), (Hr r' Hin), (Hl' r' Hin).
  reflexivity.
Qed.

(** X3: the de-duplication keeps the collected rows in their order and
    drops some; every collected row has a row of equal key in the output;
    and de-duplicating the output again changes nothing. *)
Theorem X3_dedup_keeps_order_and_keys (text : str) :
  let points := snd (collect_points unknown (split_candidates text)) in
  let unique := extract_load_points text in
  sublist unique points
  /\ Forall (fun r => exists r0, In r0 unique
                                 /\ key_eqb (key_of r0) (key_of r) = true) points
  /\ dedup [] unique = unique.
Proof.
  intros points unique.
  assert (Hu : unique = dedup [] points) by reflexivity.
  split; [rewrite Hu; apply dedup_sublist | ].
  split.
  - apply List.Forall_forall. intros r Hr.
    pose proof (collected_plausible unknown (split_candidates text)) as Hpl.
    rewrite List.Forall_forall in Hpl.
    pose proof (plausible_key_refl r (Hpl r Hr)) as Hrefl.
    destruct (find (has_key (key_of r)) points) as [r0 | ] eqn:Hfind.
    + exists r0. split.
      * assert (Hin : In r0 (List.filter (has_key (key_of r)) unique)).
        { rewrite Hu, dedup_filter. simpl. rewrite Hfind. now left. }
        apply filter_In in Hin. tauto.
      * apply find_some in Hfind. apply Hfind.
    + exfalso. pose proof (find_none _ _ Hfind r Hr) as Hno.
      unfold has_key in Hno. congruence.
  - rewrite Hu. apply dedup_fixed; [apply dedup_pairwise | ].
    apply List.Forall_forall. reflexivity.
Qed.

Lemma fold_load_step_app parts : forall cfg points,
  fold_left load_step parts (cfg, points)
  = (fst (fold_left load_step parts (cfg, [])),
     points ++ snd (fold_left load_step parts (cfg, []))).
Proof.
  induction parts as [ | part parts IH]; intros cfg points; cbn [fold_left].
  - simpl. now rewrite app_nil_r.
  - rewrite !load_step_eq. rewrite (IH _ (points ++ _)), (IH _ ([] ++ _)).
    simpl. now rewrite app_assoc.
Qed.

Lemma dedup_app a : forall seen b,
  dedup seen (a ++ b)
  = dedup seen a ++ dedup (rev (List.map key_of (dedup seen a)) ++ seen) b.
Proof.
  induction a as [ | r a IH]; intros seen b; simpl; [reflexivity | ].
  destruct (existsb (key_eqb (key_of r)) seen).
  - apply IH.
  - simpl. rewrite IH. f_equal. f_equal. now rewrite <- app_assoc.
Qed.

(** X4: the loop over a chunk sequence composes.  The rows collected for
    [parts1 ++ parts2] are those of [parts1] followed by those of [parts2]
    collected from the configuration that [parts1] leaves in force, and the
    load points of [parts1] are a prefix of those of [parts1 ++ parts2]. *)
Theorem X4_chunks_compose (default_config : str) (parts1 parts2 : list str) :
  let st1 := collect_points default_config parts1 in
  let st2 := collect_points (fst st1) parts2 in
  collect_points default_config (parts1 ++ parts2) = (fst st2, snd st1 ++ snd st2)
  /\ exists more,
       load_points_of default_config (parts1 ++ parts2)
       = load_points_of default_config parts1 ++ more.
Proof.
  intros st1 st2.
  assert (Hc : collect_points default_config (parts1 ++ parts2)
               = (fst st2, snd st1 ++ snd st2)).
  { unfold collect_points at 1. rewrite fold_left_app.
    fold (collect_points default_config parts1). fold st1.
    destruct st1 as [cfg1 pts1] eqn:E1. rewrite fold_load_step_app.
    reflexivity. }
  split; [exact Hc | ].
  unfold load_points_of. rewrite Hc. cbn [snd]. fold st1.
  rewrite dedup_app. eauto.
Qed.
End DedupMore.

Section ConfigMore.
Context `{UnicodeDB}.

(** X5: every entry [code -> description] that the configuration extractor
    returns for a text comes from a chunk of the text whose normalized form
    has at least eight characters and contains a configuration hint in
    lower case; the code is one of the code tokens of that chunk and not on
    the stop list, and the description is the start of the normalized chunk,
    between 8 and 220 characters long. *)
Theorem X5_configuration_record_invariant (text code descr : str) :
  extract_configurations text !! code = Some descr ->
  exists part,
    In part (split_candidates text)
    /\ descr = firstn 220 (normalize part)
    /\ (8 <= length (normalize part))%nat
    /\ existsb (fun h => contains h (lower (normalize part))) CONFIG_HINTS = true
    /\ In code (findall1 (finditer CONFIG_CODE_RE (normalize part)))
    /\ is_stop_code code = false
    /\ (8 <= length descr <= 220)%nat.
Proof.
  unfold extract_configurations. rewrite configurations_of_lookup.
  intros Hoffer. apply first_offer_In in Hoffer.
  destruct Hoffer as (part & Hpart & Hcfg).
  apply config_of_part_inv in Hcfg.
  destruct Hcfg as (-> & Hlen & Hhint & Hcode & Hstop).
  exists part. repeat split; auto.
  - rewrite length_firstn. lia.
  - apply firstn_length_le.
Qed.

Lemma first_offer_app code parts more :
  first_offer code (parts ++ more)
  = match first_offer code parts with
    | Some d => Some d
    | None => first_offer code more
    end.
Proof.
  induction parts as [ | part parts IH]; simpl; [reflexivity | ].
  destruct (config_of_part part) as [[c d] | ]; [ | exact IH].
  destruct (str_eqb c code); [reflexivity | exact IH].
Qed.

(** X6: chunks that follow never change what the chunks before them have
    recorded: the mapping for [parts] is contained in the mapping for
    [parts ++ more]. *)
Theorem X6_configurations_grow (parts more : list str) :
  configurations_of parts ⊆ configurations_of (parts ++ more).
Proof.
  apply map_subseteq_spec. intros code descr.
  rewrite !configurations_of_lookup, first_offer_app.
  now intros ->.
Qed.
End ConfigMore.

Section ParseMore.
Context `{UnicodeDB}.

Lemma replace_comma s :
  replace (str_of ",") (str_of ".") s = List.map comma_to_point s.
Proof.
  unfold replace. change (str_of ",") with [44]. change (str_of ".") with [46].
  induction s as [ | c s IH]; [reflexivity | ].
  cbn [replace_from starts_with List.map length Nat.pred].
  unfold comma_to_point at 1. rewrite andb_true_r, N.eqb_sym.
  destruct (c =? 44); simpl; now rewrite IH.
Qed.

(** X7: [parse_float] reads a text as it reads the text with every comma
    turned into a point, so two texts that differ only in the choice between
    commas and points give the same result. *)
Theorem X7_comma_or_point (s s' : str) :
  parse_float (replace (str_of ",") (str_of ".") s) = parse_float s
  /\ (List.map comma_to_point s = List.map comma_to_point s' ->
      parse_float s = parse_float s').
Proof.
  unfold parse_float. rewrite !replace_comma. split.
  - rewrite List.map_map.
    rewrite (List.map_ext (fun x => comma_to_point (comma_to_point x)) comma_to_point);
      [reflexivity | ].
    intros c. unfold comma_to_point. destruct (c =? 44) eqn:E; [reflexivity | ].
    now rewrite E.
  - now intros ->.
Qed.
End ParseMore.

(** * Further properties of the stream decoder *)

Section DecoderMore.

Lemma starts_with_app pat s : starts_with pat s = true -> exists tl, s = pat ++ tl.
Proof.
  revert s. induction pat as [ | a pat IH]; intros s; simpl.
  - exists s. reflexivity.
  - destruct s as [ | b s]; [discriminate | ].
    rewrite andb_true_iff, N.eqb_eq. intros [-> Hs].
    destruct (IH s Hs) as [tl ->]. exists tl. reflexivity.
Qed.

Lemma starts_with_prefix pat s tl :
  starts_with pat s = true -> starts_with pat (s ++ tl) = true.
Proof.
  revert s. induction pat as [ | a pat IH]; intros s; simpl; [reflexivity | ].
  destruct s as [ | b s]; [discriminate | ]. simpl.
  rewrite !andb_true_iff. intros [Hab Hs]. auto.
Qed.

Lemma contains_prefix pat s tl :
  contains pat s = true -> contains pat (s ++ tl) = true.
Proof.
  induction s as [ | c s IH]; simpl.
  - rewrite orb_false_r. intros Hs.
    pose proof (starts_with_prefix pat [] tl Hs) as Hp. simpl in Hp.
    destruct tl; simpl; rewrite Hp; reflexivity.
  - rewrite !orb_true_iff. intros [Hs | Hs].
    + left. exact (starts_with_prefix pat (c :: s) tl Hs).
    + right. auto.
Qed.

Lemma upto_split pat s body :
  upto pat s = Some body ->
  exists tl, s = body ++ tl /\ starts_with pat tl = true.
Proof.
  revert body. induction s as [ | c s IH]; intros body; simpl.
  - destruct (starts_with pat []) eqn:E; [ | discriminate].
    intros [= <-]. exists []. auto.
  - destruct (starts_with pat (c :: s)) eqn:E.
    + intros [= <-]. exists (c :: s). auto.
    + destruct (upto pat s) as [body' | ]; [ | discriminate].
      intros [= <-]. destruct (IH body' eq_refl) as (tl & -> & Htl).
      exists tl. auto.
Qed.

Lemma upto_first pat s body :
  pat <> [] -> upto pat s = Some body -> contains pat body = false.
Proof.
  intros Hpat. revert body. induction s as [ | c s IH]; intros body; simpl.
  - destruct (starts_with pat []); [ | discriminate].
    intros [= <-]. simpl. destruct pat; [contradiction | reflexivity].
  - destruct (starts_with pat (c :: s)) eqn:E.
    + intros [= <-]. simpl. destruct pat; [contradiction | reflexivity].
    + destruct (upto pat s) as [body' | ] eqn:Hu; [ | discriminate].
      intros [= <-]. simpl. rewrite (IH body' eq_refl), orb_false_r.
      destruct (upto_split pat s body' Hu) as (tl & -> & _).
      destruct (starts_with pat (c :: body')) eqn:E'; [ | reflexivity].
      pose proof (starts_with_prefix pat (c :: body') tl E') as Hp.
      simpl in Hp. simpl in E. congruence.
Qed.

Lemma upto_none pat s : upto pat s = None <-> contains pat s = false.
Proof.
  induction s as [ | c s IH]; simpl.
  - destruct (starts_with pat []); simpl; split; congruence.
  - destruct (starts_with pat (c :: s)); simpl; [split; congruence | ].
    rewrite <- IH. destruct (upto pat s); split; congruence.
Qed.

Lemma contains_firstn pat n s :
  contains pat s = false -> contains pat (firstn n s) = false.
Proof.
  intros Hs. destruct (contains pat (firstn n s)) eqn:E; [ | reflexivity].
  pose proof (contains_prefix pat (firstn n s) (skipn n s) E) as Hp.
  rewrite firstn_skipn in Hp. congruence.
Qed.

Lemma strip_eol_contains pat body :
  contains pat body = false -> contains pat (strip_eol body) = false.
Proof.
  intros Hb. unfold strip_eol.
  destruct (ends_with [13; 10] body); [now apply contains_firstn | ].
  destruct (ends_with [10] body); [now apply contains_firstn | exact Hb].
Qed.

End DecoderMore.

(** * The matcher finds matches *)

Section MatcherSound.

Lemma rx_match_rep greedy lo hi r1 st k :
  rx_match (Rep greedy lo hi r1) st k
  = rep_loop (rx_match r1) greedy lo hi k (S (length (rest st))) O st.
Proof. reflexivity. Qed.

Lemma below_within n hi : below n hi = true -> within (S n) hi.
Proof.
  destruct hi as [h | ]; simpl; [ | trivial].
  intros Hlt. apply Nat.ltb_lt in Hlt. lia.
Qed.

Lemma rep_loop_sound body (R : mstate -> mstate -> Prop) greedy lo hi k :
  (forall st k' res, body st k' = Some res ->
                     exists st1, R st st1 /\ k' st1 = Some res) ->
  forall fuel n st0 res,
    within n hi ->
    rep_loop body greedy lo hi k fuel n st0 = Some res ->
    exists m st1,
      iterate (fun a b => R a b /\ (length (rest b) < length (rest a))%nat) m st0 st1
      /\ (lo <= n + m)%nat /\ within (n + m) hi /\ k st1 = Some res.
Proof.
  intros Hbody. induction fuel as [ | fuel IH]; intros n st0 res Hn; simpl;
    [discriminate | ].
  assert (Hstop : (if Nat.leb lo n then k st0 else None) = Some res ->
                  exists m st1,
                    iterate (fun a b => R a b
                                        /\ (length (rest b) < length (rest a))%nat)
                      m st0 st1
                    /\ (lo <= n + m)%nat /\ within (n + m) hi /\ k st1 = Some res).
  { destruct (Nat.leb lo n) eqn:Hlo; [ | discriminate].
    apply Nat.leb_le in Hlo. intros Hk. exists O, st0.
    rewrite Nat.add_0_r. simpl. auto. }
  assert (Hagain : (if below n hi
                    then body st0 (fun st1 =>
                           if Nat.ltb (length (rest st1)) (length (rest st0))
                           then rep_loop body greedy lo hi k fuel (S n) st1
                           else None)
                    else None) = Some res ->
                   exists m st1,
                     iterate (fun a b => R a b
                                         /\ (length (rest b) < length (rest a))%nat)
                       m st0 st1
                     /\ (lo <= n + m)%nat /\ within (n + m) hi /\ k st1 = Some res).
  { destruct (below n hi) eqn:Hb; [ | discriminate].
    intros Hm. apply Hbody in Hm. destruct Hm as (st1 & HR & Hk).
    destruct (Nat.ltb (length (rest st1)) (length (rest st0))) eqn:Hlt;
      [ | discriminate].
    apply Nat.ltb_lt in Hlt.
    apply IH in Hk; [ | now apply below_within].
    destruct Hk as (m & st2 & Hit & Hlo & Hhi & Hk).
    exists (S m), st2. rewrite Nat.add_succ_r. simpl in Hlo, Hhi.
    repeat split; auto. simpl. exists st1. auto. }
  destruct greedy.
  - destruct (if below n hi then _ else None) as [res' | ] eqn:E.
    + exact Hagain.
    + exact Hstop.
  - destruct (if Nat.leb lo n then k st0 else None) as [res' | ] eqn:E.
    + exact Hstop.
    + exact Hagain.
Qed.

(** Whenever the matcher succeeds, it has reached its continuation through
    a match of the pattern. *)
Lemma rx_match_sound r : forall st k res,
  rx_match r st k = Some res ->
  exists st1, matches r st st1 /\ k st1 = Some res.
Proof.
  induction r as [ | p | r1 IH1 r2 IH2 | r1 IH1 r2 IH2 | g lo hi r1 IH1
                 | i r1 IH1 | word | ]; intros st k res.
  - simpl. intros Hk. exists st. auto.
  - simpl. destruct (rest st) as [ | c s'] eqn:Hrest; [discriminate | ].
    destruct (p c) eqn:Hp; [ | discriminate].
    intros Hk. eexists. split; [ | exact Hk]. exists c, s'. auto.
  - simpl. intros Hm. apply IH1 in Hm. destruct Hm as (st1 & H1 & Hm).
    apply IH2 in Hm. destruct Hm as (st2 & H2 & Hk).
    exists st2. split; [exists st1; auto | exact Hk].
  - simpl. destruct (rx_match r1 st k) as [res' | ] eqn:E.
    + intros [= ->]. apply IH1 in E. destruct E as (st1 & H1 & Hk).
      exists st1. auto.
    + intros Hm. apply IH2 in Hm. destruct Hm as (st1 & H2 & Hk).
      exists st1. auto.
  - rewrite rx_match_rep. intros Hm.
    apply (rep_loop_sound _ (matches r1)) in Hm; [ | exact IH1 | ].
    + destruct Hm as (m & st1 & Hit & Hlo & Hhi & Hk).
      exists st1. split; [ | exact Hk]. exists m. auto.
    + destruct hi; simpl; [lia | trivial].
  - simpl. intros Hm. apply IH1 in Hm. destruct Hm as (st1 & H1 & Hk).
    eexists. split; [ | exact Hk]. exists st1. auto.
  - simpl. destruct (xorb _ _) eqn:Hx; [ | discriminate].
    intros Hk. exists st. auto.
  - simpl. destruct (prev st) eqn:Hp; [discriminate | ].
    intros Hk. exists st. auto.
Qed.
End MatcherSound.

Section ScanSound.

Lemma iterate_suffix (R : mstate -> mstate -> Prop) n :
  (forall a b, R a b -> exists w, rest a = w ++ rest b) ->
  forall a b, iterate R n a b -> exists w, rest a = w ++ rest b.
Proof.
  intros HR. induction n as [ | n IH]; intros a b; simpl.
  - intros ->. exists []. reflexivity.
  - intros (c & Hac & Hcb). destruct (HR a c Hac) as [w1 H1].
    destruct (IH c b Hcb) as [w2 H2]. exists (w1 ++ w2).
    now rewrite H1, H2, app_assoc.
Qed.

(** A match leads to a position further on in the same subject. *)
Lemma matches_suffix r : forall st st',
  matches r st st' -> exists w, rest st = w ++ rest st'.
Proof.
  induction r as [ | p | r1 IH1 r2 IH2 | r1 IH1 r2 IH2 | g lo hi r1 IH1
                 | i r1 IH1 | word | ]; intros st st'; simpl.
  - intros ->. exists []. reflexivity.
  - intros (c & s' & Hrest & _ & ->). exists [c]. simpl. exact Hrest.
  - intros (st1 & H1 & H2). destruct (IH1 _ _ H1) as [w1 E1].
    destruct (IH2 _ _ H2) as [w2 E2]. exists (w1 ++ w2).
    now rewrite E1, E2, app_assoc.
  - intros [H1 | H2]; auto.
  - intros (n & _ & _ & Hit). eapply iterate_suffix; [ | exact Hit].
    intros a b [Hab _]. auto.
  - intros (st1 & H1 & ->). simpl. auto.
  - intros [_ ->]. exists []. reflexivity.
  - intros [_ ->]. exists []. reflexivity.
Qed.

Lemma consumed_app (w s : list N) : consumed (w ++ s) s = w.
Proof.
  unfold consumed. rewrite length_app.
  replace (length w + length s - length s)%nat with (length w) by lia.
  rewrite firstn_app, Nat.sub_diag, firstn_all. simpl. apply app_nil_r.
Qed.

Lemma hit_at_cons r c s pc : hit_at r s pc -> hit_at r (c :: s) pc.
Proof.
  destruct pc as [x | w g after]; simpl; [trivial | ].
  intros (pv & pre & st & -> & Hm & Hg & Hr).
  exists pv, (c :: pre), st. auto.
Qed.

Lemma rx_scan_hits r s : forall p skip, Forall (hit_at r s) (rx_scan r p s skip).
Proof.
  induction s as [ | c s IH]; intros p skip; simpl.
  - destruct skip; [ | constructor].
    destruct (rx_match r (MState p [] []) Some) as [st | ] eqn:E; [ | constructor].
    constructor; [ | constructor].
    apply rx_match_sound in E. destruct E as (st1 & Hm & [= ->]).
    destruct (matches_suffix _ _ _ Hm) as [w Hw]. simpl in Hw.
    destruct w; [ | discriminate]. simpl in Hw.
    exists p, [], st. simpl. auto.
  - assert (Htail : forall q n, Forall (hit_at r (c :: s)) (rx_scan r q s n)).
    { intros q n. eapply List.Forall_impl; [ | apply IH].
      intros pc. apply hit_at_cons. }
    destruct skip; [ | apply Htail].
    destruct (rx_match r (MState p (c :: s) []) Some) as [st | ] eqn:E.
    + apply rx_match_sound in E. destruct E as (st1 & Hm & [= ->]).
      destruct (matches_suffix _ _ _ Hm) as [w Hw]. simpl in Hw.
      assert (Hc : consumed (c :: s) (rest st) = w)
        by (rewrite Hw; apply consumed_app).
      rewrite Hc.
      destruct w as [ | x w].
      * constructor; [ | constructor; [exact I | apply Htail]].
        exists p, [], st. split; [reflexivity | ].
        split; [exact Hm | ]. split; [reflexivity | now rewrite Hw].
      * constructor; [ | apply Htail].
        exists p, [], st. split; [exact Hw | ].
        split; [rewrite <- Hw; exact Hm | auto].
    + constructor; [exact I | apply Htail].
Qed.
End ScanSound.

Section Candidates.

Lemma contains_suffix pat pre s :
  contains pat s = true -> contains pat (pre ++ s) = true.
Proof.
  intros Hs. induction pre as [ | c pre IH]; [exact Hs | ].
  simpl. rewrite IH. apply orb_true_r.
Qed.

Lemma strip_eol_prefix body : exists tl, body = strip_eol body ++ tl.
Proof.
  unfold strip_eol.
  destruct (ends_with [13; 10] body);
    [eexists; symmetry; apply firstn_skipn | ].
  destruct (ends_with [10] body);
    [eexists; symmetry; apply firstn_skipn | ].
  exists []. now rewrite app_nil_r.
Qed.

Lemma streams_of_hits data ps :
  Forall (hit_at STREAM_RE data) ps ->
  Forall (fun stream => exists pre post, data = pre ++ stream ++ post)
         (streams_of ps)
  /\ (contains (str_of "endstream") data = false -> streams_of ps = []).
Proof.
  induction 1 as [ | [c | w g after] ps Hp _ [IH1 IH2]]; simpl.
  - split; [constructor | reflexivity].
  - split; assumption.
  - destruct Hp as (pv & pre & st & Hdata & _ & _ & _).
    destruct (upto (str_of "endstream") after) as [body | ] eqn:Hu.
    + split.
      * constructor; [ | exact IH1].
        destruct (upto_split _ _ _ Hu) as (tl & -> & _).
        destruct (strip_eol_prefix body) as [tl' Hb].
        exists (pre ++ w), (tl' ++ tl). rewrite Hdata.
        rewrite Hb at 1. now rewrite <- !app_assoc.
      * intros Hnone. exfalso.
        destruct (upto_split _ _ _ Hu) as (tl & Hafter & Htl).
        assert (Hc : contains (str_of "endstream") data = true).
        { rewrite Hdata, app_assoc, Hafter, app_assoc.
          apply contains_suffix. destruct tl; simpl in *; now rewrite Htl. }
        congruence.
    + split; assumption.
Qed.

(** X8: every candidate stream is a contiguous piece of the file and does
    not contain the terminator [endstream]: it ends before the first
    terminator that follows its opening marker.  A file without any
    terminator has no candidate stream. *)
Theorem X8_candidate_streams (data : bytes) :
  Forall (fun stream =>
            contains (str_of "endstream") stream = false
            /\ exists pre post, data = pre ++ stream ++ post)
         (candidate_streams data)
  /\ (contains (str_of "endstream") data = false -> candidate_streams data = []).
Proof.
  unfold candidate_streams.
  destruct (streams_of_hits data (finditer STREAM_RE data)) as [Hsub Hnone];
    [apply rx_scan_hits | ].
  split; [ | exact Hnone].
  apply Forall_and. split; [ | exact Hsub].
  clear Hsub Hnone.
  induction (finditer STREAM_RE data) as [ | [c | w g after] ps IH]; simpl.
  - constructor.
  - exact IH.
  - destruct (upto (str_of "endstream") after) as [body | ] eqn:Hu; [ | exact IH].
    constructor; [ | exact IH].
    apply strip_eol_contains. eapply upto_first; [ | exact Hu]. discriminate.
Qed.
End Candidates.

Section Literals.

Lemma starts_with_head a old s :
  hd_error old = Some a -> ~ In a s -> starts_with old s = false.
Proof.
  destruct old as [ | b old]; [discriminate | ]. intros [= ->] Hnot.
  destruct s as [ | c s]; simpl; [reflexivity | ].
  destruct (a =? c) eqn:E; [ | reflexivity].
  apply N.eqb_eq in E. subst. exfalso. apply Hnot. now left.
Qed.

Lemma replace_absent a old new s :
  hd_error old = Some a -> ~ In a s -> replace old new s = s.
Proof.
  intros Hold. unfold replace. induction s as [ | c s IH]; intros Hnot;
    [reflexivity | ].
  cbn [replace_from]. rewrite (starts_with_head a old (c :: s) Hold Hnot).
  rewrite IH; [reflexivity | ]. intros Hin. apply Hnot. now right.
Qed.

Lemma existsb_zero raw : existsb (N.eqb 0) raw = true <-> In 0 raw.
Proof.
  rewrite existsb_exists. split.
  - intros (x & Hin & Hx). apply N.eqb_eq in Hx. now subst.
  - intros Hin. exists 0. auto.
Qed.

Lemma decode_encode_utf16 s :
  Forall (fun c => is_surrogate c = false) s ->
  decode_utf16_be (encode_utf16_be s) = s.
Proof.
  induction 1 as [ | c s Hc _ IH]; [reflexivity | ].
  unfold encode_utf16_be. cbn [flat_map app].
  fold (encode_utf16_be s). cbn [decode_utf16_be].
  assert (Hu : 256 * (c / 256) + c mod 256 = c)
    by (symmetry; apply N.div_mod; discriminate).
  rewrite Hu, Hc. cbn [negb]. now rewrite IH.
Qed.

Lemma encode_no_backslash s :
  Forall (fun c => c / 256 <> 92 /\ c mod 256 <> 92) s ->
  ~ In 92 (encode_utf16_be s).
Proof.
  induction 1 as [ | c s [Hhi Hlo] _ IH]; [intros [] | ].
  unfold encode_utf16_be. cbn [flat_map app]. fold (encode_utf16_be s).
  intros [E | [E | Hin]]; [congruence | congruence | auto].
Qed.

(** X9: a literal without backslash and without null byte is decoded to the
    text with the same code points (Latin-1); and the UTF-16 big-endian
    bytes of a text without surrogates decode to that text when they hold a
    null byte and no backslash byte. *)
Theorem X9_decode_pdf_literal :
  (forall raw, ~ In 92 raw -> ~ In 0 raw -> _decode_pdf_literal raw = raw)
  /\ (forall s,
        Forall (fun c => c < 65536 /\ is_surrogate c = false
                         /\ c / 256 <> 92 /\ c mod 256 <> 92) s ->
        In 0 (encode_utf16_be s) ->
        _decode_pdf_literal (encode_utf16_be s) = s).
Proof.
  split.
  - intros raw Hbs Hnull. unfold _decode_pdf_literal. cbv zeta.
    do 5 (rewrite (fun old new => replace_absent 92 old new raw)
            by (reflexivity || exact Hbs)).
    destruct (existsb (N.eqb 0) raw) eqn:E; [ | reflexivity].
    apply existsb_zero in E. contradiction.
  - intros s Hs Hnull. unfold _decode_pdf_literal. cbv zeta.
    assert (Hbs : ~ In 92 (encode_utf16_be s)).
    { apply encode_no_backslash. eapply List.Forall_impl; [ | exact Hs].
      intros c (_ & _ & Hhi & Hlo). auto. }
    do 5 (rewrite (fun old new => replace_absent 92 old new (encode_utf16_be s))
            by (reflexivity || exact Hbs)).
    apply existsb_zero in Hnull. rewrite Hnull.
    apply decode_encode_utf16. eapply List.Forall_impl; [ | exact Hs].
    intros c (_ & Hsur & _). exact Hsur.
Qed.

Lemma lstrip_split s :
  exists pre, s = pre ++ lstrip s.
Proof.
  induction s as [ | c s [pre IH]]; simpl.
  - exists []. reflexivity.
  - destruct (uni_space c).
    + exists (c :: pre). simpl. now rewrite <- IH.
    + exists []. reflexivity.
Qed.

Lemma lstrip_head s c t : lstrip s = c :: t -> uni_space c = false.
Proof.
  induction s as [ | x s IH]; simpl; [discriminate | ].
  destruct (uni_space x) eqn:E; [exact IH | ].
  now intros [= <- _].
Qed.

Lemma strip_first s c t : strip s = c :: t -> uni_space c = false.
Proof.
  unfold strip, rstrip. intros Hs.
  destruct (lstrip_split (rev (lstrip s))) as [pre Hpre].
  apply (f_equal (@rev N)) in Hpre. rewrite rev_involutive, rev_app_distr in Hpre.
  rewrite Hs in Hpre. simpl in Hpre.
  eapply lstrip_head. exact Hpre.
Qed.

Lemma strip_last s c t : strip s = t ++ [c] -> uni_space c = false.
Proof.
  unfold strip, rstrip. intros Hs.
  apply (f_equal (@rev N)) in Hs. rewrite rev_involutive, rev_app_distr in Hs.
  simpl in Hs. eapply lstrip_head. exact Hs.
Qed.

Lemma shown_text_trimmed literal : Forall trimmed (shown_text literal).
Proof.
  unfold shown_text.
  destruct (strip (_decode_pdf_literal literal)) as [ | c t] eqn:E;
    constructor; [ | constructor].
  split.
  - exists c, t. split; [reflexivity | ]. eapply strip_first. exact E.
  - destruct (exists_last (l := c :: t)) as (t' & x & Hx); [discriminate | ].
    exists x, t'. split; [exact Hx | ].
    eapply strip_last. rewrite E. exact Hx.
Qed.

(** X10: every text that the decoder takes from a decompressed stream is
    non-empty and neither begins nor ends with white space. *)
Theorem X10_shown_texts_trimmed (decoded : bytes) :
  Forall trimmed (stream_texts decoded).
Proof.
  unfold stream_texts. apply Forall_app. split.
  - apply List.Forall_forall. intros t Ht. apply in_flat_map in Ht.
    destruct Ht as (literal & _ & Ht).
    pose proof (shown_text_trimmed literal) as Hall.
    rewrite List.Forall_forall in Hall. auto.
  - apply List.Forall_forall. intros t Ht. apply in_flat_map in Ht.
    destruct Ht as (arr & _ & Ht). apply in_flat_map in Ht.
    destruct Ht as (literal & _ & Ht).
    pose proof (shown_text_trimmed literal) as Hall.
    rewrite List.Forall_forall in Hall. auto.
Qed.
End Literals.

(** * The shape of configuration codes *)

Section CodeShape.
Context `{UnicodeDB}.

Lemma iterate_chr p n : forall st st',
  iterate (fun a b => matches (Chr p) a b
                      /\ (length (rest b) < length (rest a))%nat) n st st' ->
  exists w, length w = n /\ Forall (fun c => p c = true) w
            /\ rest st = w ++ rest st' /\ caps st' = caps st.
Proof.
  induction n as [ | n IH]; intros st st'; simpl.
  - intros ->. exists []. auto.
  - intros (st1 & [(c & s' & Hrest & Hp & ->) _] & Hit).
    destruct (IH _ _ Hit) as (w & Hlen & Hall & Hw & Hcaps). simpl in Hw, Hcaps.
    exists (c :: w). simpl. rewrite Hrest, Hw. auto.
Qed.

Lemma matches_code_rx st st' :
  matches code_rx st st' ->
  exists w, code_shape w /\ rest st = w ++ rest st' /\ caps st' = caps st.
Proof.
  unfold code_rx, times, opt. cbn [matches within].
  intros (st1 & (n & Hlo & Hhi & Hit) & (n' & _ & Hhi' & Hopt)).
  apply iterate_chr in Hit. destruct Hit as (a & Hlen & Ha & Hrest & Hcaps).
  destruct n' as [ | [ | n']]; [ | | lia].
  - simpl in Hopt. subst st'. exists a. split; [ | auto].
    exists a, []. rewrite app_nil_r. repeat split; auto; lia.
  - simpl in Hopt. destruct Hopt as (st2 & [Hcat _] & ->).
    destruct Hcat as (st3 & (c & s' & Hr3 & Hc & ->) & (m & Hmlo & Hmhi & Hit')).
    destruct c as [ | q]; [discriminate | ].
    apply Pos.eqb_eq in Hc. subst q.
    apply iterate_chr in Hit'. destruct Hit' as (b' & Hlen' & Hb' & Hrest' & Hcaps').
    simpl in Hrest', Hcaps'.
    exists (a ++ 45 :: b'). split; [ | split].
    + exists a, (45 :: b'). repeat split; auto; try lia.
      right. exists b'. repeat split; auto; lia.
    + rewrite Hrest, Hr3, Hrest', <- app_assoc. reflexivity.
    + congruence.
Qed.

Lemma grouped_code_rx word st st' :
  matches (Cat (Grp 1 code_rx) (Bnd word)) st st' ->
  exists w, code_shape w /\ caps st' = (1%nat, w) :: caps st.
Proof.
  cbn [matches]. intros (st1 & (st2 & Hcode & ->) & (_ & ->)).
  apply matches_code_rx in Hcode. destruct Hcode as (w & Hw & Hrest & Hcaps).
  exists w. split; [exact Hw | ]. simpl. now rewrite Hrest, consumed_app, Hcaps.
Qed.

Lemma code_start_shape p g :
  rx_match_start CODE_START_RE p = Some g -> code_shape (group 1 g).
Proof.
  unfold rx_match_start.
  destruct (rx_match CODE_START_RE (MState None p []) Some) as [st | ] eqn:E;
    [ | discriminate].
  intros [= <-]. apply rx_match_sound in E. destruct E as (st1 & Hm & [= ->]).
  unfold CODE_START_RE in Hm. cbn [seq] in Hm.
  change (matches (Cat Bos (Cat (Grp 1 code_rx) (Bnd uni_word)))
            (MState None p []) st) in Hm.
  cbn [matches] in Hm. destruct Hm as (st0 & [_ ->] & Hm).
  apply (grouped_code_rx uni_word) in Hm. destruct Hm as (w & Hw & Hcaps).
  rewrite Hcaps. simpl. exact Hw.
Qed.

Lemma config_codes_shape s :
  Forall code_shape (findall1 (finditer CONFIG_CODE_RE s)).
Proof.
  unfold finditer. pose proof (rx_scan_hits CONFIG_CODE_RE s None O) as Hhits.
  induction Hhits as [ | [c | w g after] ps Hp _ IH]; simpl; auto.
  constructor; [ | exact IH].
  destruct Hp as (pv & pre & st & _ & Hm & -> & _).
  unfold CONFIG_CODE_RE in Hm. cbn [seq] in Hm.
  change (matches (Cat (Bnd uni_word) (Cat (Grp 1 code_rx) (Bnd uni_word)))
            (MState pv (w ++ after) []) st) in Hm.
  cbn [matches] in Hm. destruct Hm as (st0 & [_ ->] & Hm).
  apply (grouped_code_rx uni_word) in Hm. destruct Hm as (w' & Hw & Hcaps).
  rewrite Hcaps. simpl. exact Hw.
Qed.

Lemma code_shape_length w : code_shape w -> (1 <= length w <= 8)%nat.
Proof.
  intros (a & b & -> & _ & Ha & [-> | (b' & -> & _ & Hb')]);
    rewrite length_app; simpl; lia.
Qed.

Lemma code_shape_letters w :
  code_shape w -> Forall (fun c => ascii_upper c = true \/ c = 45) w.
Proof.
  intros (a & b & -> & Ha & _ & Hb). apply Forall_app. split.
  - eapply List.Forall_impl; [ | exact Ha]. auto.
  - destruct Hb as [-> | (b' & -> & Hb' & _)]; [constructor | ].
    constructor; [now right | ].
    eapply List.Forall_impl; [ | exact Hb']. auto.
Qed.

Lemma code_shape_not_unknown w : code_shape w -> w <> unknown.
Proof.
  intros Hw Heq. pose proof (code_shape_letters w Hw) as Hl.
  destruct Hw as (a & b & Hab & _ & Ha & [-> | (b' & -> & _ & _)]).
  - rewrite app_nil_r in Hab. subst. vm_compute in Ha. lia.
  - rewrite Heq in Hl. clear - Hab Hl Heq.
    assert (Hin : In 45 w) by (rewrite Hab; apply in_or_app; right; now left).
    rewrite Heq in Hin. vm_compute in Hin. intuition discriminate.
Qed.

(** X11: every configuration code that the extractors produce, be it a
    key of the configuration mapping or the configuration of a load point
    other than the default, consists of one to four capital letters,
    possibly followed by a hyphen and one to three capital letters; so it
    has at most eight characters and is never the sentinel "UNKNOWN". *)
Theorem X11_code_shape (text : str) :
  (forall code descr,
      extract_configurations text !! code = Some descr -> code_shape code)
  /\ Forall (fun r => config_code r = unknown \/ code_shape (config_code r))
            (extract_load_points text)
  /\ (forall w, code_shape w ->
                (1 <= length w <= 8)%nat
                /\ Forall (fun c => ascii_upper c = true \/ c = 45) w
                /\ w <> unknown).
Proof.
  split; [ | split].
  - intros code descr. unfold extract_configurations.
    rewrite configurations_of_lookup. intros Hoffer.
    apply first_offer_In in Hoffer. destruct Hoffer as (part & _ & Hcfg).
    apply config_of_part_inv in Hcfg. destruct Hcfg as (_ & _ & _ & Hin & _).
    pose proof (config_codes_shape (normalize part)) as Hall.
    rewrite List.Forall_forall in Hall. auto.
  - unfold extract_load_points, extract_load_points_from, load_points_of,
      collect_points.
    set (I := fun c : str => c = unknown \/ code_shape c).
    assert (Hstep : forall cfg part, I cfg -> I (next_config cfg part)).
    { intros cfg part Hcfg. unfold next_config.
      destruct (Nat.ltb (length (normalize part)) 4); [exact Hcfg | ].
      unfold switch_config.
      destruct (rx_match_start CODE_START_RE (normalize part)) as [g | ] eqn:Hg;
        [ | exact Hcfg].
      right. eapply code_start_shape. exact Hg. }
    assert (Hall : Forall (fun r => I (config_code r))
                     (snd (fold_left load_step (split_candidates text)
                             (unknown, [])))).
    { apply (fold_load_step_inv I (fun r => I (config_code r))); auto.
      - intros cfg part r _ Hcfg Hr. apply chunk_points_inv in Hr.
        destruct Hr as (_ & -> & _). now apply Hstep.
      - now left. }
    apply List.Forall_forall. intros r Hr.
    apply dedup_In in Hr. rewrite List.Forall_forall in Hall. now apply Hall.
  - intros w Hw. split; [now apply code_shape_length | ].
    split; [now apply code_shape_letters | now apply code_shape_not_unknown].
Qed.
End CodeShape.

(** * White-space normalization *)

Section Normalize.

Lemma lstrip_length s : (length (lstrip s) <= length s)%nat.
Proof.
  induction s as [ | c s IH]; simpl; [lia | ].
  destruct (uni_space c); simpl; lia.
Qed.

(** The greedy loop over white space stops where [lstrip] does. *)
Lemma ws_loop body lo fuel :
  (forall st k,
      body st k = match rest st with
                  | c :: s' =>
                      if uni_space c
                      then k (MState (Some c) s' (caps st)) else None
                  | [] => None
                  end) ->
  forall n st0,
  (length (rest st0) < fuel)%nat ->
  exists st,
    rest st = lstrip (rest st0)
    /\ rep_loop body true lo None Some fuel n st0
       = if Nat.leb lo (n + (length (rest st0) - length (lstrip (rest st0))))
         then Some st else None.
Proof.
  intros Hbody.
  induction fuel as [ | fuel IH]; intros n st0 Hfuel; [lia | ].
  cbn [rep_loop below]. rewrite Hbody.
  destruct (rest st0) as [ | c s'] eqn:Hrest.
  - exists st0. rewrite Hrest. simpl. rewrite Nat.add_0_r. auto.
  - destruct (uni_space c) eqn:Hc.
    + cbn [rest]. simpl in Hfuel.
      assert (Hlt : Nat.ltb (length s') (length (c :: s')) = true)
        by (apply Nat.ltb_lt; simpl; lia).
      rewrite Hlt.
      destruct (IH (S n) (MState (Some c) s' (caps st0))) as (st & Hst & Hloop);
        [simpl; lia | ].
      cbn [rest] in Hst, Hloop. exists st. split.
      * simpl. rewrite Hc. exact Hst.
      * rewrite Hloop. pose proof (lstrip_length s') as Hle.
        cbn [lstrip]. rewrite Hc. cbn [length].
        replace (n + (S (length s') - length (lstrip s')))%nat
          with (S n + (length s' - length (lstrip s')))%nat by lia.
        destruct (Nat.leb lo (S n + (length s' - length (lstrip s')))) eqn:E;
          [reflexivity | ].
        apply Nat.leb_gt in E.
        assert (Hn : Nat.leb lo n = false) by (apply Nat.leb_gt; lia).
        now rewrite Hn.
    + exists st0. rewrite Hrest. cbn [lstrip]. rewrite Hc.
      rewrite Nat.sub_diag, Nat.add_0_r. auto.
Qed.

Lemma match_ws_run p s :
  (exists c s', s = c :: s' /\ uni_space c = true
                /\ exists st, rest st = lstrip s
                              /\ rx_match (plus ws) (MState p s []) Some = Some st)
  \/ ((s = [] \/ exists c s', s = c :: s' /\ uni_space c = false)
      /\ rx_match (plus ws) (MState p s []) Some = None).
Proof.
  unfold plus, ws. rewrite rx_match_rep.
  destruct (ws_loop (rx_match (Chr uni_space)) 1 (S (length s))
              (fun st k => eq_refl) O (MState p s []))
    as (st & Hst & Hloop); [simpl; lia | ].
  cbn [rest] in *. rewrite Hloop. clear Hloop.
  pose proof (lstrip_length s) as Hle.
  destruct s as [ | c s'].
  - right. split; [now left | reflexivity].
  - destruct (uni_space c) eqn:Hc.
    + left. exists c, s'. split; [reflexivity | ]. split; [exact Hc | ].
      exists st. split; [exact Hst | ].
      cbn [lstrip] in *. rewrite Hc in *.
      pose proof (lstrip_length s') as Hle'. cbn [length].
      destruct (S (length s') - length (lstrip s'))%nat eqn:E; [lia | reflexivity].
    + right. split; [right; exists c, s'; auto | ].
      cbn [lstrip]. rewrite Hc. now rewrite Nat.sub_diag.
Qed.

Lemma rx_scan_skip r w : forall p s,
  exists p', rx_scan r p (w ++ s) (length w) = rx_scan r p' s O.
Proof.
  induction w as [ | c w IH]; intros p s; simpl.
  - exists p. reflexivity.
  - apply IH.
Qed.

Lemma lstrip_run s :
  exists w, s = w ++ lstrip s /\ Forall (fun c => uni_space c = true) w.
Proof.
  induction s as [ | c s (w & Hw & Hall)]; simpl.
  - exists []. auto.
  - destruct (uni_space c) eqn:Hc.
    + exists (c :: w). simpl. rewrite <- Hw. auto.
    + exists []. auto.
Qed.

Lemma collapse_true_lstrip s : collapse true s = collapse false (lstrip s).
Proof.
  induction s as [ | c s IH]; simpl; [reflexivity | ].
  destruct (uni_space c) eqn:Hc; [exact IH | ].
  simpl. now rewrite Hc.
Qed.

(** Replacing the matches of [\s+] by a space is the pass [collapse]. *)
Lemma sub_ws_collapse n : forall s p,
  (length s <= n)%nat ->
  sub_pieces (str_of " ") (rx_scan (plus ws) p s O) = collapse false s.
Proof.
  induction n as [ | n IH]; intros s p Hlen.
  - destruct s; [ | simpl in Hlen; lia]. cbn [rx_scan].
    destruct (match_ws_run p []) as [(c & s' & E & _) | [_ Hnone]];
      [discriminate | ].
    rewrite Hnone. reflexivity.
  - destruct s as [ | c s'].
    + cbn [rx_scan].
      destruct (match_ws_run p []) as [(c & s' & E & _) | [_ Hnone]];
        [discriminate | ].
      rewrite Hnone. reflexivity.
    + cbn [rx_scan].
      destruct (match_ws_run p (c :: s'))
        as [(c0 & s0 & [= <- <-] & Hc & st & Hst & Hm)
           | [[E | (c0 & s0 & [= <- <-] & Hc)] Hnone]]; try discriminate.
      * rewrite Hm. cbn [lstrip] in Hst. rewrite Hc in Hst.
        destruct (lstrip_run s') as (w & Hw & Hall).
        assert (Hcons : consumed (c :: s') (rest st) = c :: w).
        { rewrite Hst. rewrite Hw at 1.
          change (c :: w ++ lstrip s') with ((c :: w) ++ lstrip s').
          apply consumed_app. }
        rewrite Hcons. cbn [sub_pieces length Nat.pred].
        rewrite Hw at 1.
        destruct (rx_scan_skip (plus ws) w (Some c) (lstrip s')) as [p' ->].
        rewrite IH.
        -- cbn [collapse]. rewrite Hc. now rewrite collapse_true_lstrip.
        -- pose proof (lstrip_length s'). simpl in Hlen. lia.
      * rewrite Hnone. cbn [sub_pieces collapse]. rewrite Hc.
        rewrite IH; [reflexivity | simpl in Hlen; lia].
Qed.

Lemma normalize_collapse s : normalize s = strip (collapse false s).
Proof.
  unfold normalize, finditer. now rewrite (sub_ws_collapse (length s)).
Qed.

Lemma collapse_spaced s : forall b,
  spaced (collapse b s)
  /\ (b = true -> match collapse b s with
                  | d :: _ => uni_space d = false
                  | [] => True
                  end).
Proof.
  induction s as [ | c s IH]; intros b; simpl; [auto | ].
  destruct (uni_space c) eqn:Hc.
  - destruct b.
    + apply IH.
    + split; [ | discriminate]. simpl. split; [ | apply IH].
      intros _. split; [reflexivity | ]. now apply (IH true).
  - split; [ | intros _; exact Hc]. simpl. split; [ | apply IH].
    intros Hs. congruence.
Qed.

Lemma spaced_suffix w s : spaced (w ++ s) -> spaced s.
Proof. induction w as [ | c w IH]; simpl; [auto | intros [_ Hs]; auto]. Qed.

Lemma spaced_prefix w s : spaced (w ++ s) -> spaced w.
Proof.
  induction w as [ | c w IH]; simpl; [auto | ].
  intros [Hc Hs]. split; [ | auto].
  intros Hsp. destruct (Hc Hsp) as [-> Hnext]. split; [reflexivity | ].
  destruct w; simpl in *; auto.
Qed.

Lemma rstrip_split x : exists post, x = rstrip x ++ post.
Proof.
  unfold rstrip. destruct (lstrip_split (rev x)) as [pre Hpre].
  exists (rev pre). apply (f_equal (@rev N)) in Hpre.
  now rewrite rev_involutive, rev_app_distr in Hpre.
Qed.

Lemma strip_single_spaced s : spaced s -> single_spaced (strip s).
Proof.
  intros Hs. split; [ | split].
  - unfold strip. destruct (lstrip_split s) as [pre Hpre].
    destruct (rstrip_split (lstrip s)) as [post Hpost].
    rewrite Hpre in Hs. apply spaced_suffix in Hs.
    rewrite Hpost in Hs. now apply spaced_prefix in Hs.
  - intros c t' Ht. eapply strip_first. exact Ht.
  - intros c t' Ht. eapply strip_last. exact Ht.
Qed.

Lemma lstrip_id t :
  (forall c t', t = c :: t' -> uni_space c = false) -> lstrip t = t.
Proof.
  destruct t as [ | c t]; [reflexivity | ]. intros Hh. simpl.
  now rewrite (Hh c t eq_refl).
Qed.

Lemma strip_id t :
  (forall c t', t = c :: t' -> uni_space c = false) ->
  (forall c t', t = t' ++ [c] -> uni_space c = false) ->
  strip t = t.
Proof.
  intros Hfirst Hlast. unfold strip, rstrip. rewrite (lstrip_id t Hfirst).
  rewrite lstrip_id; [apply rev_involutive | ].
  intros c t' Hrev. apply (Hlast c (rev t')).
  apply (f_equal (@rev N)) in Hrev. rewrite rev_involutive in Hrev.
  rewrite Hrev. reflexivity.
Qed.

Lemma collapse_id t : forall b,
  spaced t ->
  (forall c t', t = t' ++ [c] -> uni_space c = false) ->
  (b = true -> forall c t', t = c :: t' -> uni_space c = false) ->
  collapse b t = t.
Proof.
  induction t as [ | c t IH]; intros b Hs Hlast Hb; simpl; [reflexivity | ].
  destruct Hs as [Hc Hs].
  assert (Hlast' : forall x t', t = t' ++ [x] -> uni_space x = false).
  { intros x t' ->. apply (Hlast x (c :: t')). reflexivity. }
  destruct (uni_space c) eqn:E.
  - destruct (Hc eq_refl) as [-> Hnext].
    destruct b; [rewrite (Hb eq_refl 32 t eq_refl) in E; discriminate | ].
    f_equal. apply IH; auto.
    intros _ d t' ->. exact Hnext.
  - f_equal. apply IH; auto. discriminate.
Qed.

(** X12: the normalized form of a text has single spaces for white space:
    every white-space character in it is a space that stands between two
    other characters, and none stands at either end.  Normalizing a
    normalized text gives it back.  The text returned by the stream decoder
    is in this form, whatever the file and whatever [zlib.decompress]
    does. *)
Theorem X12_normalized_text (zlib_decompress : bytes -> exc bytes) (s data : list N) :
  single_spaced (normalize s)
  /\ normalize (normalize s) = normalize s
  /\ single_spaced (extract_pdf_text zlib_decompress data).
Proof.
  assert (Hnorm : forall x, single_spaced (normalize x)).
  { intros x. rewrite normalize_collapse. apply strip_single_spaced.
    apply (collapse_spaced x false). }
  split; [apply Hnorm | ]. split; [ | apply Hnorm].
  destruct (Hnorm s) as (Hsp & Hfirst & Hlast).
  rewrite (normalize_collapse (normalize s)).
  rewrite collapse_id; auto.
  now apply strip_id.
Qed.
End Normalize.

(** * Counting matches *)

Section Counting.
Context `{UnicodeDB}.

Lemma iterate_min_len (R : mstate -> mstate -> Prop) m n :
  (forall a b, R a b -> (length (rest b) + m <= length (rest a))%nat) ->
  forall a b, iterate R n a b -> (length (rest b) + n * m <= length (rest a))%nat.
Proof.
  intros HR. induction n as [ | n IH]; intros a b; simpl.
  - intros ->. lia.
  - intros (c & Hac & Hcb). pose proof (HR a c Hac). pose proof (IH c b Hcb). lia.
Qed.

Lemma matches_min_len r : forall st st',
  matches r st st' -> (length (rest st') + min_len r <= length (rest st))%nat.
Proof.
  induction r as [ | p | r1 IH1 r2 IH2 | r1 IH1 r2 IH2 | g lo hi r1 IH1
                 | i r1 IH1 | word | ]; intros st st'; simpl.
  - intros ->. lia.
  - intros (c & s' & -> & _ & ->). simpl. lia.
  - intros (st1 & H1 & H2). pose proof (IH1 _ _ H1). pose proof (IH2 _ _ H2). lia.
  - intros [H1 | H2]; [pose proof (IH1 _ _ H1) | pose proof (IH2 _ _ H2)]; lia.
  - intros (n & Hlo & _ & Hit).
    pose proof (iterate_min_len _ (min_len r1) n
                  (fun a b Hab => IH1 a b (proj1 Hab)) st st' Hit).
    nia.
  - intros (st1 & H1 & ->). simpl. apply IH1. exact H1.
  - intros [_ ->]. lia.
  - intros [_ ->]. lia.
Qed.

Lemma hit_at_min_len r s ps :
  Forall (hit_at r s) ps -> (count_hits ps * min_len r <= weight ps)%nat.
Proof.
  intros Hps. induction Hps as [ | [c | w g after] ps Hp _ IH]; simpl.
  - lia.
  - lia.
  - destruct Hp as (pv & pre & st & _ & Hm & _ & Hrest).
    apply matches_min_len in Hm. simpl in Hm. rewrite Hrest, length_app in Hm.
    lia.
Qed.

Lemma rx_scan_weight r s : forall p skip,
  (skip <= length s)%nat -> (weight (rx_scan r p s skip) + skip = length s)%nat.
Proof.
  induction s as [ | c s IH]; intros p skip Hskip; simpl in *.
  - destruct skip; [ | lia].
    destruct (rx_match r (MState p [] []) Some) as [st | ]; simpl; lia.
  - destruct skip as [ | skip].
    + destruct (rx_match r (MState p (c :: s) []) Some) as [st | ] eqn:E.
      * destruct (consumed (c :: s) (rest st)) as [ | x w] eqn:Hw.
        -- simpl. rewrite <- (IH (Some c) O); lia.
        -- assert (Hlen : (length (x :: w) <= length (c :: s))%nat).
           { rewrite <- Hw. unfold consumed. rewrite length_firstn. lia. }
           simpl in Hlen. simpl.
           pose proof (IH (Some c) (length w)). lia.
      * simpl. rewrite <- (IH (Some c) O); lia.
    + pose proof (IH (Some c) skip). lia.
Qed.

Lemma count_bound r s :
  (count_hits (finditer r s) * min_len r <= length s)%nat.
Proof.
  unfold finditer.
  pose proof (hit_at_min_len r s _ (rx_scan_hits r s None O)).
  pose proof (rx_scan_weight r s None O). lia.
Qed.

Lemma findall3_count ps : length (findall3 ps) = count_hits ps.
Proof.
  induction ps as [ | [c | w g after] ps IH]; simpl; auto.
Qed.

(** X13: every match of the triple pattern takes at least eight
    characters and the matches do not overlap, so a chunk whose normalized
    form has [n] characters adds at most [n / 8 + 1] rows. *)
Theorem X13_rows_bounded_by_length (cfg part : str) :
  (8 * length (chunk_points cfg part) <= length (normalize part) + 8)%nat.
Proof.
  unfold chunk_points.
  destruct (Nat.ltb (length (normalize part)) 4); [simpl; lia | ].
  rewrite length_app.
  pose proof (triple_points_length (switch_config cfg (normalize part))
                (normalize part)) as Ht.
  pose proof (fallback_points_length (switch_config cfg (normalize part))
                (normalize part)) as Hf.
  rewrite findall3_count in Ht.
  pose proof (count_bound TRIPLE_RE (normalize part)) as Hc.
  change (min_len TRIPLE_RE) with 8%nat in Hc. lia.
Qed.

(** X14: the page count estimate counts matches that do not overlap and
    take at least ten bytes each ("/Type", "/Page" and the white space
    between), so it is at most a tenth of the length of the file. *)
Theorem X14_page_count_bound (pdf_bytes : bytes) :
  (10 * estimate_page_count pdf_bytes <= length pdf_bytes)%nat.
Proof.
  unfold estimate_page_count.
  pose proof (count_bound PAGE_RE pdf_bytes) as Hc.
  change (min_len PAGE_RE) with 10%nat in Hc. lia.
Qed.
End Counting.

(** * Decoding a shown text *)

Section RoundTrip.

(** A lazy loop over any character passes over a text on which its
    continuation fails and stops where the continuation first succeeds. *)
Lemma lazy_any_through body k t tail :
  (forall st k', body st k' = match rest st with
                              | c :: s' => k' (MState (Some c) s' (caps st))
                              | [] => None
                              end) ->
  (forall st c s', rest st = c :: s' -> In c t -> k st = None) ->
  forall fuel n pv cs res,
    (length (t ++ tail) < fuel)%nat ->
    k (MState (prev_after pv t) tail cs) = Some res ->
    rep_loop body false 0 None k fuel n (MState pv (t ++ tail) cs) = Some res.
Proof.
  intros Hbody Hfail. induction t as [ | c t IH]; intros fuel n pv cs res Hfuel Hk.
  - destruct fuel; [simpl in Hfuel; lia | ]. cbn [rep_loop Nat.leb].
    simpl in Hk. simpl. now rewrite Hk.
  - destruct fuel; [simpl in Hfuel; lia | ]. cbn [rep_loop Nat.leb below].
    rewrite (Hfail (MState pv ((c :: t) ++ tail) cs) c (t ++ tail));
      [ | reflexivity | now left].
    rewrite Hbody. cbn [rest app caps].
    assert (Hlt : Nat.ltb (length (t ++ tail)) (length (c :: t ++ tail)) = true)
      by (apply Nat.ltb_lt; simpl; lia).
    rewrite Hlt. apply IH.
    + intros st x s' Hrest Hin. eapply Hfail; [exact Hrest | now right].
    + simpl in Hfuel. lia.
    + exact Hk.
Qed.

Lemma consumed_nil (s : list N) : consumed s [] = s.
Proof. unfold consumed. simpl. rewrite Nat.sub_0_r. apply firstn_all. Qed.

Lemma rx_match_cat r1 r2 st k :
  rx_match (Cat r1 r2) st k = rx_match r1 st (fun st1 => rx_match r2 st1 k).
Proof. reflexivity. Qed.

Lemma rx_match_grp i r st k :
  rx_match (Grp i r) st k
  = rx_match r st (fun st1 =>
      k (MState (prev st1) (rest st1)
           ((i, consumed (rest st) (rest st1)) :: caps st1))).
Proof. reflexivity. Qed.

Lemma rx_match_lit c p s cs k :
  rx_match (lit c) (MState p (c :: s) cs) k = k (MState (Some c) s cs).
Proof. unfold lit. cbn [rx_match rest caps]. now rewrite N.eqb_refl. Qed.

Lemma rx_match_lit_miss c st k x s :
  rest st = x :: s -> x <> c -> rx_match (lit c) st k = None.
Proof.
  intros Hrest Hx. unfold lit. cbn [rx_match]. rewrite Hrest.
  destruct (c =? x) eqn:E; [ | reflexivity].
  apply N.eqb_eq in E. congruence.
Qed.

Lemma match_show p t :
  ~ In 41 t ->
  rx_match SHOW_RE (MState p (show_stream t) []) Some
  = Some (MState (Some 106) [] [(1%nat, t)]).
Proof.
  intros Hparen. unfold SHOW_RE, show_stream, lazy_any.
  change (str_of "(") with [40]. cbn [seq app].
  rewrite rx_match_cat, rx_match_lit, rx_match_cat, rx_match_grp, rx_match_rep.
  cbn [rest].
  apply (lazy_any_through (rx_match any)).
  - intros st k'. reflexivity.
  - intros st c s' Hrest Hin. rewrite rx_match_cat.
    apply (rx_match_lit_miss 41 _ _ c s'); [exact Hrest | ].
    intros ->. contradiction.
  - lia.
  - cbn [rest caps prev]. rewrite consumed_app. reflexivity.
Qed.

Lemma scan_whole r p c w st :
  rx_match r (MState p (c :: w) []) Some = Some st ->
  rest st = [] ->
  (forall p', rx_match r (MState p' [] []) Some = None) ->
  rx_scan r p (c :: w) O = [Hit (c :: w) (caps st) []].
Proof.
  intros Hm Hrest Hend. cbn [rx_scan]. rewrite Hm, Hrest, consumed_nil.
  cbn [length Nat.pred].
  destruct (rx_scan_skip r w (Some c) []) as [p' Hp'].
  rewrite app_nil_r in Hp'. rewrite Hp'. cbn [rx_scan]. now rewrite Hend.
Qed.

Lemma scan_show t :
  ~ In 41 t -> findall1 (finditer SHOW_RE (show_stream t)) = [t].
Proof.
  intros Hparen. unfold finditer.
  pose proof (match_show None t Hparen) as Hm.
  unfold show_stream in *. change (str_of "(") with [40] in *.
  cbn [app] in *.
  rewrite (scan_whole _ _ _ _ _ Hm); reflexivity.
Qed.

Lemma scan_without_first a r' s :
  ~ In a s ->
  forall p skip, findall1 (rx_scan (Cat (lit a) r') p s skip) = [].
Proof.
  induction s as [ | c s IH]; intros Hnot p skip.
  - destruct skip; reflexivity.
  - assert (Hs : ~ In a s) by (intros Hin; apply Hnot; now right).
    destruct skip as [ | skip]; cbn [rx_scan]; [ | now apply IH].
    rewrite rx_match_cat.
    rewrite (rx_match_lit_miss a _ _ c s); [ | reflexivity | ].
    + cbn [findall1]. now apply IH.
    + intros ->. apply Hnot. now left.
Qed.

Lemma show_stream_has_operator t : has_show_operator (show_stream t) = true.
Proof.
  unfold has_show_operator, show_stream.
  rewrite app_assoc, (contains_suffix (str_of "Tj")); reflexivity.
Qed.

(** X15: a content stream that shows a text [t] with one [Tj] operator
    decodes to [t]: when the only candidate stream of a file inflates to
    [(t) Tj], where [t] is not empty, is in normal form (single spaces, none
    at the ends) and has no closing parenthesis, opening bracket, backslash
    or null byte, the decoder returns exactly [t]. *)
Theorem X15_shown_text_round_trip
    (zlib_decompress : bytes -> exc bytes) (data body t : bytes) :
  candidate_streams data = [body] ->
  zlib_decompress body = Ret (show_stream t) ->
  t <> [] ->
  single_spaced t ->
  Forall (fun c => c <> 0 /\ c <> 41 /\ c <> 91 /\ c <> 92) t ->
  stream_texts (show_stream t) = [t]
  /\ extract_pdf_text zlib_decompress data = t.
Proof.
  intros Hcand Hinfl Hne (Hsp & Hfirst & Hlast) Hplain.
  assert (Hnot : forall x, (forall c, c <> 0 /\ c <> 41 /\ c <> 91 /\ c <> 92 -> c <> x)
                           -> ~ In x t).
  { intros x Hx Hin. rewrite List.Forall_forall in Hplain.
    exact (Hx x (Hplain x Hin) eq_refl). }
  assert (H0 : ~ In 0 t) by (apply Hnot; tauto).
  assert (H41 : ~ In 41 t) by (apply Hnot; tauto).
  assert (H91 : ~ In 91 t) by (apply Hnot; tauto).
  assert (H92 : ~ In 92 t) by (apply Hnot; tauto).
  assert (Hdec : _decode_pdf_literal t = t).
  { unfold _decode_pdf_literal. cbv zeta.
    do 5 (rewrite (fun old new => replace_absent 92 old new t)
            by (reflexivity || exact H92)).
    destruct (existsb (N.eqb 0) t) eqn:E; [ | reflexivity].
    apply existsb_zero in E. contradiction. }
  assert (Htexts : stream_texts (show_stream t) = [t]).
  { unfold stream_texts. rewrite (scan_show t H41).
    unfold SHOW_ARRAY_RE. cbn [seq]. unfold finditer.
    rewrite (scan_without_first 91 _ (show_stream t)).
    - cbn [flat_map]. rewrite app_nil_r. unfold shown_text.
      rewrite Hdec, (strip_id t Hfirst Hlast).
      destruct t; [contradiction | reflexivity].
    - unfold show_stream. intros Hin.
      apply in_app_or in Hin. destruct Hin as [Hin | Hin];
        [vm_compute in Hin; intuition discriminate | ].
      apply in_app_or in Hin. destruct Hin as [Hin | Hin]; [contradiction | ].
      vm_compute in Hin. intuition discriminate. }
  split; [exact Htexts | ].
  unfold extract_pdf_text. rewrite Hcand. cbn [flat_map].
  unfold texts_of_stream. rewrite Hinfl, show_stream_has_operator. cbn [negb].
  rewrite Htexts. cbn [app join].
  rewrite normalize_collapse, collapse_id; auto.
  now apply strip_id.
Qed.
End RoundTrip.

(** * Chunks and separators *)

Section Splitting.
Context `{UnicodeDB}.

Lemma rx_scan_text r s : forall p skip,
  (skip <= length s)%nat -> pieces_text (rx_scan r p s skip) = skipn skip s.
Proof.
  induction s as [ | c s IH]; intros p skip Hskip; simpl in Hskip.
  - destruct skip; [ | lia]. cbn [rx_scan].
    destruct (rx_match r (MState p [] []) Some); reflexivity.
  - destruct skip as [ | skip]; cbn [rx_scan skipn].
    + destruct (rx_match r (MState p (c :: s) []) Some) as [st | ] eqn:E.
      * destruct (consumed (c :: s) (rest st)) as [ | x w] eqn:Hw.
        -- cbn [pieces_text app]. now rewrite IH by lia.
        -- cbn [pieces_text length Nat.pred].
           assert (Hlen : (length (x :: w) <= length (c :: s))%nat).
           { rewrite <- Hw. unfold consumed. rewrite length_firstn. lia. }
           simpl in Hlen. rewrite IH by lia.
           unfold consumed in Hw.
           destruct (length (c :: s) - length (rest st))%nat as [ | k] eqn:Hk;
             [discriminate | ].
           cbn [firstn] in Hw. injection Hw as <- <-.
           assert (Hlk : length (firstn k s) = k).
           { rewrite length_firstn. simpl in Hk. lia. }
           rewrite Hlk. simpl. now rewrite firstn_skipn.
      * cbn [pieces_text]. now rewrite IH by lia.
    + apply IH. lia.
Qed.

Lemma weave_split ps : forall cur,
  weave (split_pieces cur ps) (hit_texts ps) = rev cur ++ pieces_text ps
  /\ length (split_pieces cur ps) = S (length (hit_texts ps)).
Proof.
  induction ps as [ | [c | w g after] ps IH]; intros cur; simpl.
  - now rewrite app_nil_r.
  - destruct (IH (c :: cur)) as [Hw Hl]. rewrite Hw, Hl. simpl.
    now rewrite <- app_assoc.
  - destruct (IH []) as [Hw Hl]. rewrite Hw, Hl. auto.
Qed.

Lemma matches_separator st st' :
  matches SPLIT_RE st st' ->
  exists w, separator_shape w /\ rest st = w ++ rest st'.
Proof.
  unfold SPLIT_RE. cbn [seq matches within].
  intros [(n & Hn & _ & Hit) | [Hbar | Hhyp]].
  - apply iterate_chr in Hit. destruct Hit as (w & Hlen & Hall & Hrest & _).
    exists w. split; [left; split; [lia | exact Hall] | exact Hrest].
  - destruct Hbar as (st1 & (a & s1 & Hr1 & Ha & ->)
                          & st2 & (m & s2 & Hr2 & Hm & ->)
                          & (b & s3 & Hr3 & Hb & ->)).
    cbn [rest caps] in *. apply N.eqb_eq in Hm. subst.
    exists [a; 124; b]. split; [right; exists a, 124, b; auto | ].
    rewrite Hr1. reflexivity.
  - destruct Hhyp as (st1 & (a & s1 & Hr1 & Ha & ->)
                          & st2 & (m & s2 & Hr2 & Hm & ->)
                          & (b & s3 & Hr3 & Hb & ->)).
    cbn [rest caps] in *. apply N.eqb_eq in Hm. subst.
    exists [a; 45; b]. split; [right; exists a, 45, b; auto | ].
    rewrite Hr1. reflexivity.
Qed.

Lemma spaced_inside pre a b post :
  spaced (pre ++ a :: b :: post) -> uni_space a = true ->
  a = 32 /\ uni_space b = false.
Proof.
  intros Hs Ha. apply spaced_suffix in Hs. destruct Hs as [Hc _].
  exact (Hc Ha).
Qed.

Lemma spaced_space pre a post :
  spaced (pre ++ a :: post) -> uni_space a = true -> a = 32.
Proof.
  intros Hs Ha. apply spaced_suffix in Hs. destruct Hs as [Hc _].
  apply (Hc Ha).
Qed.

Lemma separators_shape text :
  Forall (fun w => separator_shape w
                   /\ exists pre post, text = pre ++ w ++ post)
         (separators text).
Proof.
  unfold separators, finditer.
  pose proof (rx_scan_hits SPLIT_RE text None O) as Hhits.
  induction Hhits as [ | [c | w g after] ps Hp _ IH]; simpl; auto.
  constructor; [ | exact IH].
  destruct Hp as (pv & pre & st & Htext & Hm & _ & Hrest).
  apply matches_separator in Hm. destruct Hm as (w' & Hshape & Hw).
  cbn [rest] in Hw. rewrite Hrest in Hw. apply app_inv_tail in Hw. subst w'.
  split; [exact Hshape | exists pre, after; exact Htext].
Qed.

(** X16: the chunks of a text, put back around the separators that
    [split_candidates] removed, give the text again, and there is one chunk
    more than there are separators.  A separator is a run of two or more
    white-space characters, or a bar or a hyphen between two white-space
    characters; in a text in normal form, as the decoder returns it, every
    separator is " | " or " - ". *)
Theorem X16_chunks_and_separators (text : str) :
  weave (split_candidates text) (separators text) = text
  /\ length (split_candidates text) = S (length (separators text))
  /\ Forall separator_shape (separators text)
  /\ (single_spaced text ->
      Forall (fun w => w = str_of " | " \/ w = str_of " - ") (separators text)).
Proof.
  unfold split_candidates.
  destruct (weave_split (finditer SPLIT_RE text) []) as [Hw Hl].
  split; [ | split; [exact Hl | ]].
  - unfold separators. rewrite Hw. unfold finditer.
    now rewrite rx_scan_text by lia.
  - pose proof (separators_shape text) as Hall. split.
    + eapply List.Forall_impl; [ | exact Hall]. intros w [Hs _]. exact Hs.
    + intros (Hsp & _ & _).
      eapply List.Forall_impl; [ | exact Hall].
      intros w [Hshape (pre & post & ->)].
      destruct Hshape as [[Hlen Hws] | (a & m & b & -> & Ha & Hb & Hm)].
      * exfalso. destruct w as [ | a [ | b w]]; simpl in Hlen; try lia.
        inversion Hws as [ | ? ? Ha Hws']. subst.
        inversion Hws' as [ | ? ? Hb _]. subst.
        cbn [app] in Hsp.
        destruct (spaced_inside pre a b (w ++ post) Hsp Ha) as [_ Hnb].
        congruence.
      * cbn [app] in Hsp.
        pose proof (spaced_space pre a (m :: b :: post) Hsp Ha) as ->.
        pose proof (spaced_space (pre ++ [32; m]) b post) as Hb32.
        rewrite <- app_assoc in Hb32. cbn [app] in Hb32.
        rewrite (Hb32 Hsp Hb).
        destruct Hm as [-> | ->]; [now left | now right].
Qed.
End Splitting.

(** * The configuration rows *)

Section ConfigurationRows.
Context `{UnicodeDB}.

Lemma str_ltb_trans a : forall b c,
  str_ltb a b = true -> str_ltb b c = true -> str_ltb a c = true.
Proof.
  induction a as [ | x a IH]; intros [ | y b] [ | z c]; simpl; try discriminate;
    auto.
  rewrite !orb_true_iff, !andb_true_iff, !N.ltb_lt, !N.eqb_eq.
  intros [Hxy | [-> Hab]] [Hyz | [-> Hbc]].
  - left. lia.
  - now left.
  - now left.
  - right. split; [reflexivity | eauto].
Qed.

Lemma str_ltb_total a : forall b,
  a <> b -> str_ltb a b = true \/ str_ltb b a = true.
Proof.
  induction a as [ | x a IH]; intros [ | y b] Hne; simpl; auto;
    try congruence.
  rewrite !orb_true_iff, !andb_true_iff, !N.ltb_lt, !N.eqb_eq.
  destruct (N.lt_trichotomy x y) as [Hlt | [-> | Hgt]]; auto.
  destruct (IH b) as [Hab | Hba]; [congruence | auto | auto].
Qed.

Lemma str_ltb_irrefl a : str_ltb a a = false.
Proof.
  induction a as [ | x a IH]; simpl; [reflexivity | ].
  now rewrite N.ltb_irrefl, N.eqb_refl, IH.
Qed.

Lemma insert_item_In x y l : In y (insert_item x l) <-> y = x \/ In y l.
Proof.
  induction l as [ | z l IH]; simpl; [intuition | ].
  destruct (item_ltb x z); simpl; [intuition | ].
  rewrite IH. intuition.
Qed.

Lemma sorted_items_In y l : In y (sorted_items l) <-> In y l.
Proof.
  induction l as [ | x l IH]; simpl; [tauto | ].
  rewrite insert_item_In, IH. intuition.
Qed.

Lemma insert_item_ascending x l :
  ascending l ->
  Forall (fun y => fst y <> fst x) l ->
  ascending (insert_item x l).
Proof.
  induction l as [ | z l IH]; intros Hasc Hne; simpl; [auto | ].
  destruct Hasc as [Hz Hasc].
  inversion Hne as [ | ? ? Hzx Hne']. subst.
  destruct (item_ltb x z) eqn:E.
  - assert (Hxz : str_ltb (fst x) (fst z) = true).
    { unfold item_ltb in E. apply orb_true_iff in E. destruct E as [E | E]; auto.
      apply andb_true_iff in E. destruct E as [E _].
      apply str_eqb_eq in E. congruence. }
    simpl. split; [ | split; auto].
    constructor; [exact Hxz | ].
    eapply List.Forall_impl; [ | exact Hz].
    intros y Hy. eapply str_ltb_trans; eassumption.
  - assert (Hzx' : str_ltb (fst z) (fst x) = true).
    { destruct (str_ltb_total (fst z) (fst x) Hzx) as [Hlt | Hlt]; auto.
      unfold item_ltb in E. now rewrite Hlt in E. }
    simpl. split; [ | auto].
    apply List.Forall_forall. intros y Hy. apply insert_item_In in Hy.
    destruct Hy as [-> | Hy]; [exact Hzx' | ].
    rewrite List.Forall_forall in Hz. auto.
Qed.

Lemma sorted_items_ascending l :
  List.NoDup (List.map fst l) -> ascending (sorted_items l).
Proof.
  induction l as [ | x l IH]; simpl; [auto | ].
  intros Hnd. inversion Hnd as [ | ? ? Hx Hnd']. subst.
  apply insert_item_ascending; [auto | ].
  apply List.Forall_forall. intros y Hy Heq.
  apply (proj1 (sorted_items_In y l)) in Hy. apply Hx. rewrite <- Heq.
  exact (List.in_map fst l y Hy).
Qed.

Lemma rows_lookup (m : gmap (list N) (list N)) code descr :
  In (code, descr) (sorted_items (map_to_list m)) <-> m !! code = Some descr.
Proof.
  rewrite sorted_items_In, <- list_elem_of_In. apply elem_of_map_to_list.
Qed.

(** X17: the configuration rows written for a manual are never empty,
    their codes are in strictly ascending order (so no code occurs twice),
    and they hold exactly the extracted configurations, or the one sentinel
    row ("UNKNOWN", "Configuration not confidently identified ...") when no
    configuration was extracted.  The sentinel row is written in that case
    only. *)
Theorem X17_configuration_rows (text : str) :
  configuration_rows text <> []
  /\ ascending (configuration_rows text)
  /\ (forall code descr,
        In (code, descr) (configuration_rows text)
        <-> configs_or_sentinel (extract_configurations text) !! code = Some descr)
  /\ (extract_configurations text = ∅
      <-> configuration_rows text = [(unknown, SENTINEL_DESCRIPTION)])
  /\ (extract_configurations text <> ∅ ->
      forall code descr,
        In (code, descr) (configuration_rows text)
        <-> extract_configurations text !! code = Some descr).
Proof.
  unfold configuration_rows.
  assert (Hne : configs_or_sentinel (extract_configurations text) <> ∅).
  { unfold configs_or_sentinel.
    destruct (decide (extract_configurations text = ∅)); [ | assumption].
    intros Hempty. apply (f_equal (fun m => m !! unknown)) in Hempty.
    rewrite lookup_singleton_eq, lookup_empty in Hempty. discriminate. }
  split; [ | split; [ | split; [ | split]]].
  - intros Hnil. apply Hne. apply map_to_list_empty_iff.
    destruct (map_to_list (configs_or_sentinel (extract_configurations text)))
      as [ | x l] eqn:E; [reflexivity | ].
    exfalso. assert (Hin : In x (sorted_items (x :: l)))
      by (apply sorted_items_In; now left).
    rewrite Hnil in Hin. exact Hin.
  - apply sorted_items_ascending. apply NoDup_ListNoDup.
    apply NoDup_fst_map_to_list.
  - intros code descr. apply rows_lookup.
  - unfold configs_or_sentinel.
    destruct (decide (extract_configurations text = ∅)) as [He | Hn].
    + split; [intros _ | auto].
      rewrite map_to_list_singleton. reflexivity.
    + split; [contradiction | ]. intros Hrows. exfalso.
      assert (Hin : In (unknown, SENTINEL_DESCRIPTION)
                      (sorted_items (map_to_list (extract_configurations text))))
        by (rewrite Hrows; now left).
      apply rows_lookup in Hin. unfold extract_configurations in Hin.
      rewrite configurations_of_lookup in Hin. apply first_offer_In in Hin.
      destruct Hin as (part & _ & Hcfg).
      apply config_of_part_inv in Hcfg. destruct Hcfg as (_ & _ & _ & Hcode & _).
      pose proof (config_codes_shape (normalize part)) as Hall.
      rewrite List.Forall_forall in Hall.
      exact (code_shape_not_unknown unknown (Hall unknown Hcode) eq_refl).
  - intros Hn code descr. unfold configs_or_sentinel.
    destruct (decide (extract_configurations text = ∅)); [contradiction | ].
    apply rows_lookup.
Qed.
End ConfigurationRows.

(** * File names *)

Section FileNames.

Lemma replace_char a b s :
  replace [a] [b] s = List.map (fun c => if c =? a then b else c) s.
Proof.
  unfold replace. induction s as [ | c s IH]; [reflexivity | ].
  cbn [replace_from starts_with List.map length Nat.pred].
  rewrite andb_true_r, N.eqb_sym.
  destruct (c =? a); simpl; now rewrite IH.
Qed.

Lemma collapse_In c s : forall b, In c (collapse b s) -> In c s \/ c = 32.
Proof.
  induction s as [ | x s IH]; intros b; simpl; [tauto | ].
  destruct (uni_space x).
  - destruct b.
    + intros Hin. destruct (IH _ Hin); auto.
    + intros [<- | Hin]; [auto | ]. destruct (IH _ Hin); auto.
  - intros [<- | Hin]; [auto | ]. destruct (IH _ Hin); auto.
Qed.

Lemma lstrip_In c s : In c (lstrip s) -> In c s.
Proof.
  destruct (lstrip_split s) as [pre Hpre]. intros Hin.
  rewrite Hpre. apply in_or_app. now right.
Qed.

Lemma normalize_In c s : In c (normalize s) -> In c s \/ c = 32.
Proof.
  rewrite normalize_collapse. unfold strip, rstrip. intros Hin.
  apply in_rev, lstrip_In, in_rev, lstrip_In in Hin.
  exact (collapse_In c s false Hin).
Qed.

Lemma join_cons sep (a b : list N) l :
  join sep (a :: b :: l) = a ++ sep ++ join sep (b :: l).
Proof. reflexivity. Qed.

(** The words of a text in normal form, joined by single spaces, give the
    text again. *)
Lemma join_split_ws s : forall cur,
  spaced s ->
  (forall c t', s = t' ++ [c] -> uni_space c = false) ->
  (cur = [] -> forall c t', s = c :: t' -> uni_space c = false) ->
  join [32] (split_ws cur s) = rev cur ++ s.
Proof.
  induction s as [ | c s IH]; intros cur Hsp Hlast Hfirst.
  - simpl. destruct cur; simpl; now rewrite ?app_nil_r.
  - destruct Hsp as [Hc Hsp].
    assert (Hlast' : forall x t', s = t' ++ [x] -> uni_space x = false).
    { intros x t' ->. apply (Hlast x (c :: t')). reflexivity. }
    cbn [split_ws]. destruct (uni_space c) eqn:E.
    + destruct (Hc eq_refl) as [-> Hnext].
      destruct cur as [ | y cur];
        [rewrite (Hfirst eq_refl 32 s eq_refl) in E; discriminate | ].
      destruct s as [ | d s];
        [rewrite (Hlast 32 [] eq_refl) in E; discriminate | ].
      assert (Hrest : join [32] (split_ws [] (d :: s)) = d :: s).
      { rewrite IH; auto. intros _ x t' [= <- _]. exact Hnext. }
      destruct (split_ws [] (d :: s)) as [ | w ws] eqn:Hw;
        [discriminate | ].
      rewrite join_cons, Hrest. reflexivity.
    + rewrite IH; auto; [ | discriminate].
      simpl. now rewrite <- app_assoc.
Qed.

Lemma split_ws_words s : forall cur,
  Forall (fun c => uni_space c = false) cur ->
  Forall (fun w => w <> [] /\ Forall (fun c => uni_space c = false) w)
         (split_ws cur s).
Proof.
  induction s as [ | c s IH]; intros cur Hcur; simpl.
  - destruct cur as [ | y cur]; constructor; [ | constructor].
    split.
    + intros Hr. apply (f_equal (@length N)) in Hr.
      rewrite length_rev in Hr. discriminate.
    + apply List.Forall_rev. exact Hcur.
  - destruct (uni_space c) eqn:E.
    + destruct cur as [ | y cur]; [apply IH; constructor | ].
      constructor; [ | apply IH; constructor].
      split.
      * intros Hr. apply (f_equal (@length N)) in Hr.
        rewrite length_rev in Hr. discriminate.
      * apply List.Forall_rev. exact Hcur.
    + apply IH. constructor; assumption.
Qed.

(** X18: the stem that [parse_filename] works on is in normal form and has
    no underscore.  When the stem is empty there is no manufacturer and the
    model is empty; otherwise the manufacturer is the first word of the stem,
    and either the stem is that single word and the model repeats it, or the
    stem is the manufacturer, a space and the model. *)
Theorem X18_parse_filename (pdf_name : str) :
  let stem := filename_stem pdf_name in
  single_spaced stem
  /\ ~ In 95 stem
  /\ match parse_filename pdf_name with
     | (None, model) => stem = [] /\ model = []
     | (Some manufacturer, model) =>
         manufacturer <> []
         /\ Forall (fun c => uni_space c = false) manufacturer
         /\ ((stem = manufacturer /\ model = manufacturer)
             \/ (model <> [] /\ stem = manufacturer ++ [32] ++ model))
     end.
Proof.
  intros stem.
  assert (Hss : single_spaced stem).
  { unfold stem, filename_stem. rewrite normalize_collapse.
    apply strip_single_spaced. apply (collapse_spaced _ false). }
  split; [exact Hss | ]. split.
  - unfold stem, filename_stem. intros Hin. apply normalize_In in Hin.
    destruct Hin as [Hin | Hin]; [ | discriminate].
    change (str_of "_") with [95] in Hin. change (str_of " ") with [32] in Hin.
    rewrite replace_char in Hin. apply in_map_iff in Hin.
    destruct Hin as (c & Hc & _). destruct (c =? 95) eqn:E; [discriminate | ].
    apply N.eqb_neq in E. congruence.
  - unfold parse_filename. fold stem. cbv zeta.
    destruct Hss as (Hsp & Hfirst & Hlast).
    pose proof (join_split_ws stem [] Hsp Hlast (fun _ => Hfirst)) as Hjoin.
    pose proof (split_ws_words stem [] (List.Forall_nil _)) as Hwords.
    simpl in Hjoin. change (str_of " ") with [32].
    destruct (split_ws [] stem) as [ | man rest] eqn:Htok.
    + simpl in *. auto.
    + inversion Hwords as [ | ? ? [Hne Hman] _]. subst.
      split; [exact Hne | ]. split; [exact Hman | ].
      destruct rest as [ | w rest].
      * left. simpl in *. auto.
      * right. cbn [length Nat.ltb Nat.leb tl].
        rewrite join_cons in Hjoin. split; [ | now rewrite Hjoin].
        inversion Hwords as [ | ? ? _ Hrest]. subst.
        inversion Hrest as [ | ? ? [Hw _] _]. subst.
        destruct rest; simpl; [exact Hw | ].
        destruct w; [contradiction | discriminate].
Qed.
End FileNames.

(** * Chunks of a text in normal form *)

Section NormalChunks.
Context `{UnicodeDB}.

Lemma separator_edges w : separator_shape w -> ws_edges w.
Proof.
  intros [[Hlen Hall] | (a & m & b & -> & Ha & Hb & _)].
  - destruct w as [ | x w]; [simpl in Hlen; lia | ]. split.
    + exists x, w. inversion Hall. auto.
    + destruct (exists_last (l := x :: w)) as (w' & y & Hy); [discriminate | ].
      exists w', y. split; [exact Hy | ].
      rewrite List.Forall_forall in Hall. apply Hall. rewrite Hy.
      apply in_or_app. right. now left.
  - split; [exists a, [m; b]; auto | exists [a; m], b; auto].
Qed.

Lemma weave_between chunks : forall seps pre0 text,
  length chunks = S (length seps) ->
  Forall ws_edges seps ->
  (pre0 = [] \/ exists pre' a, pre0 = pre' ++ [a] /\ uni_space a = true) ->
  text = pre0 ++ weave chunks seps ->
  Forall (between_ws text) chunks.
Proof.
  induction chunks as [ | c chunks IH]; intros seps pre0 text Hlen Hseps Hpre Htext;
    [constructor | ].
  destruct seps as [ | s seps].
  - destruct chunks; [ | simpl in Hlen; lia].
    constructor; [ | constructor].
    exists pre0, []. simpl in Htext. rewrite app_nil_r. auto.
  - destruct (List.Forall_inv Hseps) as [(b & s' & Hb & Hbw) (s'' & a & Ha & Haw)].
    pose proof (List.Forall_inv_tail Hseps) as Hseps'.
    cbn [weave] in Htext. constructor.
    + exists pre0, (s ++ weave chunks seps). split; [exact Htext | ].
      split; [exact Hpre | ]. right. rewrite Hb. simpl. eauto.
    + apply (IH seps (pre0 ++ c ++ s)).
      * simpl in Hlen. lia.
      * exact Hseps'.
      * right. exists (pre0 ++ c ++ s''), a. split; [ | exact Haw].
        rewrite Ha at 1. now rewrite <- !app_assoc.
      * rewrite Htext. now rewrite <- !app_assoc.
Qed.

Lemma between_ws_normal text chunk :
  single_spaced text -> between_ws text chunk -> normalize chunk = chunk.
Proof.
  intros (Hsp & Hfirst & Hlast) (pre & post & Htext & Hpre & Hpost).
  assert (Hc : spaced chunk).
  { rewrite Htext in Hsp. apply spaced_suffix in Hsp.
    now apply spaced_prefix in Hsp. }
  assert (Hcf : forall c t', chunk = c :: t' -> uni_space c = false).
  { intros c t' ->. destruct Hpre as [-> | (pre' & a & -> & Ha)].
    - apply (Hfirst c (t' ++ post)). exact Htext.
    - rewrite Htext in Hsp. rewrite <- app_assoc in Hsp. cbn [app] in Hsp.
      now destruct (spaced_inside pre' a c (t' ++ post) Hsp Ha). }
  assert (Hcl : forall c t', chunk = t' ++ [c] -> uni_space c = false).
  { intros c t' ->. destruct Hpost as [-> | (b & post' & -> & Hb)].
    - apply (Hlast c (pre ++ t')). rewrite Htext, app_nil_r.
      now rewrite app_assoc.
    - destruct (uni_space c) eqn:E; [ | reflexivity].
      rewrite Htext in Hsp. rewrite <- app_assoc in Hsp. cbn [app] in Hsp.
      rewrite app_assoc in Hsp.
      destruct (spaced_inside (pre ++ t') c b post' Hsp E) as [_ Hnb].
      congruence. }
  rewrite normalize_collapse, collapse_id; auto.
  now apply strip_id.
Qed.

(** X19: in a text in normal form every chunk is in normal form already,
    so the normalization that both extractors apply to each chunk leaves it
    as it is.  This holds for the chunks of the text that the stream decoder
    returns, whatever the file and whatever [zlib.decompress] does. *)
Theorem X19_chunks_already_normal
    (zlib_decompress : bytes -> exc bytes) (data : bytes) (text : str) :
  (single_spaced text ->
   Forall (fun part => normalize part = part) (split_candidates text))
  /\ Forall (fun part => normalize part = part)
            (split_candidates (extract_pdf_text zlib_decompress data)).
Proof.
  assert (Hgen : forall t, single_spaced t ->
                           Forall (fun part => normalize part = part)
                                  (split_candidates t)).
  { intros t Ht.
    assert (Hb : Forall (between_ws t) (split_candidates t)).
    { unfold split_candidates.
      destruct (weave_split (finditer SPLIT_RE t) []) as [Hw Hl].
      apply (weave_between _ (hit_texts (finditer SPLIT_RE t)) []);
        [exact Hl | | now left | ].
      - pose proof (separators_shape t) as Hall.
        eapply List.Forall_impl; [ | exact Hall].
        intros w [Hs _]. now apply separator_edges.
      - rewrite Hw. unfold finditer. now rewrite rx_scan_text by lia. }
    eapply List.Forall_impl; [ | exact Hb].
    intros part. now apply between_ws_normal. }
  split; [apply Hgen | ].
  apply Hgen. unfold extract_pdf_text. rewrite normalize_collapse.
  apply strip_single_spaced. apply (collapse_spaced _ false).
Qed.
End NormalChunks.

(** * Captured numbers always parse *)

Section NumbersParse.
Context `{UnicodeDB}.

Lemma iterate_caps (R : mstate -> mstate -> Prop) n :
  (forall a b, R a b -> caps b = caps a) ->
  forall a b, iterate R n a b -> caps b = caps a.
Proof.
  intros HR. induction n as [ | n IH]; intros a b; simpl.
  - now intros ->.
  - intros (c & Hac & Hcb). rewrite (IH c b Hcb). auto.
Qed.

Lemma matches_group_free r : group_free r = true ->
  forall st st', matches r st st' -> caps st' = caps st.
Proof.
  induction r as [ | p | r1 IH1 r2 IH2 | r1 IH1 r2 IH2 | g lo hi r1 IH1
                 | i r1 IH1 | word | ]; simpl; intros Hgf st st'.
  - now intros ->.
  - intros (c & s' & _ & _ & ->). reflexivity.
  - apply andb_true_iff in Hgf. destruct Hgf as [H1 H2].
    intros (st1 & Hm1 & Hm2). rewrite (IH2 H2 _ _ Hm2). auto.
  - apply andb_true_iff in Hgf. destruct Hgf as [H1 H2].
    intros [Hm | Hm]; auto.
  - intros (n & _ & _ & Hit). eapply iterate_caps; [ | exact Hit].
    intros a b [Hab _]. auto.
  - discriminate.
  - now intros [_ ->].
  - now intros [_ ->].
Qed.

Lemma matches_number_rx n st st' :
  matches (number_rx n) st st' ->
  exists w, number_shape w /\ rest st = w ++ rest st' /\ caps st' = caps st.
Proof.
  unfold number_rx, times, opt, plus. cbn [matches within].
  intros (st1 & (k & Hlo & _ & Hit) & (k' & _ & Hhi' & Hopt)).
  apply iterate_chr in Hit. destruct Hit as (ip & Hlen & Hip & Hrest & Hcaps).
  assert (Hne : ip <> []) by (intros ->; simpl in Hlen; lia).
  destruct k' as [ | [ | k']]; [ | | lia].
  - simpl in Hopt. subst st'. exists ip. split; [ | auto].
    exists ip, []. rewrite app_nil_r. auto.
  - simpl in Hopt. destruct Hopt as (st2 & [Hcat _] & ->).
    destruct Hcat as (st3 & (c & s' & Hr3 & Hc & ->) & (m & Hmlo & _ & Hit')).
    apply iterate_chr in Hit'. destruct Hit' as (fd & Hlen' & Hfd & Hrest' & Hcaps').
    simpl in Hrest', Hcaps'.
    exists (ip ++ c :: fd). split; [ | split].
    + exists ip, (c :: fd). repeat split; auto.
      right. exists c, fd. repeat split; auto.
      * apply orb_true_iff in Hc. rewrite !N.eqb_eq in Hc. exact Hc.
      * intros ->. simpl in Hlen'. lia.
    + rewrite Hrest, Hr3, Hrest', <- app_assoc. reflexivity.
    + congruence.
Qed.

Lemma matches_grouped_number i n st st' :
  matches (Grp i (number_rx n)) st st' ->
  exists w, number_shape w /\ caps st' = (i, w) :: caps st.
Proof.
  cbn [matches]. intros (st1 & Hm & ->).
  apply matches_number_rx in Hm. destruct Hm as (w & Hw & Hrest & Hcaps).
  exists w. split; [exact Hw | ]. simpl. now rewrite Hrest, consumed_app, Hcaps.
Qed.

Lemma number_m_groups st st' :
  matches NUMBER_M_RE st st' ->
  caps st = [] -> number_shape (group 1 (caps st')).
Proof.
  unfold NUMBER_M_RE. cbn [seq].
  intros (st1 & Hg & Hm) Hnil.
  apply matches_grouped_number in Hg. destruct Hg as (w & Hw & Hc).
  apply matches_group_free in Hm; [ | reflexivity].
  rewrite Hm, Hc. simpl. exact Hw.
Qed.

Lemma number_t_groups st st' :
  matches NUMBER_T_RE st st' ->
  caps st = [] -> number_shape (group 1 (caps st')).
Proof.
  unfold NUMBER_T_RE. cbn [seq].
  intros (st1 & Hg & Hm) Hnil.
  apply matches_grouped_number in Hg. destruct Hg as (w & Hw & Hc).
  apply matches_group_free in Hm; [ | reflexivity].
  rewrite Hm, Hc. simpl. exact Hw.
Qed.

Lemma triple_groups st st' :
  matches TRIPLE_RE st st' ->
  number_shape (group 1 (caps st'))
  /\ number_shape (group 2 (caps st'))
  /\ number_shape (group 3 (caps st')).
Proof.
  unfold TRIPLE_RE. cbn [seq].
  intros (s1 & Hg1 & s2 & Ha & s3 & Hb & s4 & Hc & s5 & Hg2
          & s6 & Hd & s7 & He & s8 & Hf & s9 & Hg3 & Hrest).
  apply matches_grouped_number in Hg1, Hg2, Hg3.
  destruct Hg1 as (w1 & Hw1 & Hc1). destruct Hg2 as (w2 & Hw2 & Hc2).
  destruct Hg3 as (w3 & Hw3 & Hc3).
  apply matches_group_free in Ha, Hb, Hc, Hd, He, Hf, Hrest; try reflexivity.
  rewrite Hrest, Hc3, Hf, He, Hd, Hc2, Hc, Hb, Ha, Hc1. simpl. auto.
Qed.

Lemma uni_digit_below c :
  (c <? 256) = true -> uni_digit c = true ->
  ascii_digit c = true /\ uni_decimal c = Some (c - 48).
Proof.
  unfold uni_digit, uni_decimal. intros ->.
  destruct (ascii_digit c); [auto | discriminate].
Qed.

Lemma ascii_digit_range c : ascii_digit c = true <-> 48 <= c <= 57.
Proof.
  unfold ascii_digit, in_range. rewrite andb_true_iff, !N.leb_le. tauto.
Qed.

Lemma ascii_of_digit_id c :
  (c <? 256) = true -> uni_digit c = true -> ascii_of_digit c = c.
Proof.
  intros Hc Hd. destruct (uni_digit_below c Hc Hd) as [Ha Hu].
  unfold ascii_of_digit. rewrite Hu. apply ascii_digit_range in Ha. lia.
Qed.

Lemma ascii_of_digit_digit c :
  sane_digits -> uni_digit c = true -> ascii_digit (ascii_of_digit c) = true.
Proof.
  intros Hsane Hd. destruct (c <? 256) eqn:Hc.
  - rewrite (ascii_of_digit_id c Hc Hd). apply (uni_digit_below c Hc Hd).
  - unfold ascii_of_digit. unfold uni_digit in Hd. unfold uni_decimal in *.
    rewrite Hc in *. destruct (ext_decimal c) as [d | ] eqn:E; [ | discriminate].
    destruct (Hsane c d E) as [Hlt _]. apply ascii_digit_range. lia.
Qed.

Lemma to_ascii_char_small c :
  numeral_char c -> (c <? 128) = true -> to_ascii_char c = c.
Proof.
  intros Hc Hlt. unfold to_ascii_char. destruct (c =? 46) eqn:E.
  - apply N.eqb_eq in E. now subst.
  - destruct Hc as [Hd | ->]; [ | discriminate].
    apply ascii_of_digit_id; [ | exact Hd].
    apply N.ltb_lt in Hlt. apply N.ltb_lt. lia.
Qed.

Lemma transform_numeral v :
  sane_digits -> Forall numeral_char v ->
  transform_decimal_and_space v = List.map to_ascii_char v.
Proof.
  intros Hsane. induction 1 as [ | c v Hc _ IH]; [reflexivity | ].
  cbn [transform_decimal_and_space List.map].
  destruct (c <? 127) eqn:Hlt.
  - rewrite IH, to_ascii_char_small; auto.
    apply N.ltb_lt in Hlt. apply N.ltb_lt. lia.
  - apply N.ltb_ge in Hlt.
    destruct Hc as [Hd | ->]; [ | vm_compute in Hlt; congruence].
    assert (Hbig : (c <? 256) = false).
    { destruct (c <? 256) eqn:E; [ | reflexivity].
      destruct (uni_digit_below c E Hd) as [Ha _].
      apply ascii_digit_range in Ha. lia. }
    unfold to_ascii_char, ascii_of_digit.
    assert (H46 : (c =? 46) = false) by (apply N.eqb_neq; lia).
    rewrite H46. unfold uni_digit in Hd. unfold uni_decimal in *.
    rewrite Hbig in *. destruct (ext_decimal c) as [d | ] eqn:E; [ | discriminate].
    destruct (Hsane c d E) as [_ Hsp]. rewrite Hsp, IH. reflexivity.
Qed.

Lemma to_ascii_numeral v :
  sane_digits -> Forall numeral_char v -> to_ascii v = List.map to_ascii_char v.
Proof.
  intros Hsane Hv. unfold to_ascii.
  destruct (forallb (fun c => c <? 128) v) eqn:E;
    [ | now apply transform_numeral].
  rewrite forallb_forall in E. rewrite List.Forall_forall in Hv.
  symmetry. rewrite <- (List.map_id v) at 2. apply List.map_ext_in.
  intros c Hc. apply to_ascii_char_small; auto.
Qed.

Lemma lstrip_ascii_id a :
  Forall (fun c => ascii_space c = false) a -> lstrip_ascii a = a.
Proof. destruct 1 as [ | c a Hc _]; simpl; [reflexivity | now rewrite Hc]. Qed.

Lemma strip_ascii_id a :
  Forall (fun c => ascii_space c = false) a -> strip_ascii a = a.
Proof.
  intros Ha. unfold strip_ascii. rewrite (lstrip_ascii_id a Ha).
  rewrite lstrip_ascii_id; [apply rev_involutive | ].
  now apply List.Forall_rev.
Qed.

Lemma contains_char x s : contains [x] s = true -> In x s.
Proof.
  induction s as [ | c s IH]; simpl; [discriminate | ].
  rewrite andb_true_r. destruct (x =? c) eqn:E; simpl.
  - apply N.eqb_eq in E. auto.
  - auto.
Qed.

Lemma take_sign_digit c s :
  ascii_digit c = true -> take_sign (c :: s) = (false, c :: s).
Proof.
  intros Hc. apply ascii_digit_range in Hc. unfold take_sign.
  destruct c as [ | q]; [reflexivity | ].
  do 6 (try destruct q as [q | q | ]); try reflexivity; exfalso; lia.
Qed.

Lemma span_digits_app ds r :
  Forall (fun c => ascii_digit c = true) ds ->
  (r = [] \/ exists x r', r = x :: r' /\ ascii_digit x = false) ->
  span_digits (ds ++ r) = (ds, r).
Proof.
  intros Hds Hr. induction Hds as [ | c ds Hc _ IH]; simpl.
  - destruct Hr as [-> | (x & r' & -> & Hx)]; simpl; [reflexivity | ].
    now rewrite Hx.
  - now rewrite Hc, IH.
Qed.

(** The number grammar accepts digits with an optional point and digits
    after it. *)
Lemma float_from_ascii_numeral a1 a2 :
  a1 <> [] ->
  Forall (fun c => ascii_digit c = true) a1 ->
  (a2 = [] \/ exists a3, a2 = 46 :: a3 /\ a3 <> []
                         /\ Forall (fun c => ascii_digit c = true) a3) ->
  exists d e, float_from_ascii (a1 ++ a2) = Ret (binary64_of_decimal false d e).
Proof.
  intros Hne Ha1 Ha2. unfold float_from_ascii.
  destruct a1 as [ | c a1]; [contradiction | ].
  pose proof (List.Forall_inv Ha1) as Hc.
  cbn [app]. rewrite (take_sign_digit c _ Hc).
  change (c :: a1 ++ a2) with ((c :: a1) ++ a2).
  unfold take_number.
  destruct Ha2 as [-> | (a3 & -> & Hne3 & Ha3)].
  - rewrite (span_digits_app (c :: a1) []); [ | exact Ha1 | now left].
    cbn. eauto.
  - rewrite (span_digits_app (c :: a1) (46 :: a3)); [ | exact Ha1 | ].
    + assert (Hs3 : span_digits a3 = (a3, [])).
      { rewrite <- (span_digits_app a3 []); [ | exact Ha3 | now left].
        now rewrite app_nil_r. }
      cbv beta iota zeta. rewrite Hs3.
      destruct a3; [contradiction | ]. cbn. eauto.
    + right. exists 46, a3. split; reflexivity.
Qed.

Lemma parse_float_number w :
  sane_digits -> number_shape w -> exists v, parse_float w = Some v.
Proof.
  intros Hsane (ip & fp & -> & Hne & Hip & Hfp).
  unfold parse_float. rewrite replace_comma.
  assert (Hdig : forall l, Forall (fun c => uni_digit c = true) l ->
                           List.map comma_to_point l = l
                           /\ Forall numeral_char l
                           /\ Forall (fun c => ascii_digit c = true)
                                     (List.map to_ascii_char l)
                           /\ List.map to_ascii_char l = List.map ascii_of_digit l).
  { induction 1 as [ | c l Hc _ (IH1 & IH2 & IH3 & IH4)]; [repeat split; constructor | ].
    assert (H44 : (c =? 44) = false).
    { destruct (c =? 44) eqn:E; [ | reflexivity].
      apply N.eqb_eq in E. subst. vm_compute in Hc. discriminate. }
    assert (H46 : (c =? 46) = false).
    { destruct (c =? 46) eqn:E; [ | reflexivity].
      apply N.eqb_eq in E. subst. vm_compute in Hc. discriminate. }
    cbn [List.map]. unfold comma_to_point at 1. unfold to_ascii_char at 1 3.
    rewrite H44, H46, IH1, IH4. repeat split.
    - constructor; [now left | exact IH2].
    - constructor; [now apply ascii_of_digit_digit | now rewrite <- IH4]. }
  destruct (Hdig ip Hip) as (Hi1 & Hi2 & Hi3 & _).
  rewrite List.map_app, Hi1.
  set (fp1 := List.map comma_to_point fp).
  assert (Hfp1 : Forall numeral_char fp1
                 /\ (List.map to_ascii_char fp1 = []
                     \/ exists a3, List.map to_ascii_char fp1 = 46 :: a3 /\ a3 <> []
                                    /\ Forall (fun c => ascii_digit c = true) a3)).
  { unfold fp1. destruct Hfp as [-> | (sep & fd & -> & Hsep & Hnefd & Hfd)].
    - split; [constructor | now left].
    - destruct (Hdig fd Hfd) as (Hf1 & Hf2 & Hf3 & _).
      cbn [List.map]. rewrite Hf1.
      assert (Hs : comma_to_point sep = 46)
        by (destruct Hsep as [-> | ->]; reflexivity).
      rewrite Hs. split; [constructor; [now right | exact Hf2] | ].
      right. exists (List.map to_ascii_char fd). split; [reflexivity | ].
      split; [ | exact Hf3].
      destruct fd; [contradiction | discriminate]. }
  destruct Hfp1 as [Hn1 Hshape].
  assert (Hnum : Forall numeral_char (ip ++ fp1)) by (apply Forall_app; auto).
  unfold py_float. rewrite (to_ascii_numeral _ Hsane Hnum), List.map_app.
  set (a1 := List.map to_ascii_char ip) in *.
  set (a2 := List.map to_ascii_char fp1) in *.
  assert (Hchars : Forall (fun c => ascii_digit c = true \/ c = 46) (a1 ++ a2)).
  { apply Forall_app. split.
    - eapply List.Forall_impl; [ | exact Hi3]. auto.
    - destruct Hshape as [-> | (a3 & -> & _ & Ha3)]; [constructor | ].
      constructor; [now right | ].
      eapply List.Forall_impl; [ | exact Ha3]. auto. }
  assert (Hnows : Forall (fun c => ascii_space c = false) (a1 ++ a2)).
  { eapply List.Forall_impl; [ | exact Hchars].
    intros c [Hc | ->]; [ | reflexivity].
    apply ascii_digit_range in Hc. unfold ascii_space, in_range.
    apply orb_false_iff. split.
    - apply andb_false_iff. right. apply N.leb_gt. lia.
    - apply N.eqb_neq. lia. }
  rewrite (strip_ascii_id _ Hnows).
  assert (Hno : contains [95] (a1 ++ a2) = false).
  { destruct (contains [95] (a1 ++ a2)) eqn:E; [ | reflexivity].
    apply contains_char in E. rewrite List.Forall_forall in Hchars.
    destruct (Hchars 95 E) as [Hc | Hc]; [ | discriminate].
    vm_compute in Hc. discriminate. }
  rewrite Hno.
  destruct (float_from_ascii_numeral a1 a2) as (d & e & ->); auto.
  - unfold a1. destruct ip; [contradiction | discriminate].
  - eauto.
Qed.

(** X20: every number that the triple pattern or the meter and ton
    patterns capture parses, so a match is never dropped for a number that
    is [None]: the first filter of the triple loop and the [is not None]
    tests of the fallback pattern always let it pass.  This supposes that
    the Unicode database gives its decimal digits values below ten and does
    not count them as white space. *)
Theorem X20_captured_numbers_parse (p : str) :
  sane_digits ->
  Forall (fun m =>
            exists boom radius cap,
              parse_float (fst (fst m)) = Some boom
              /\ parse_float (snd (fst m)) = Some radius
              /\ parse_float (snd m) = Some cap)
         (findall3 (finditer TRIPLE_RE p))
  /\ Forall (fun x => x <> None)
            (List.map parse_float (findall1 (finditer NUMBER_M_RE p)))
  /\ Forall (fun x => x <> None)
            (List.map parse_float (findall1 (finditer NUMBER_T_RE p))).
Proof.
  intros Hsane. unfold finditer. split; [ | split].
  - pose proof (rx_scan_hits TRIPLE_RE p None O) as Hhits.
    induction Hhits as [ | [c | w g after] ps Hp _ IH]; simpl; auto.
    constructor; [ | exact IH].
    destruct Hp as (pv & pre & st & _ & Hm & -> & _).
    destruct (triple_groups _ _ Hm) as (H1 & H2 & H3).
    destruct (parse_float_number _ Hsane H1) as [b Hb].
    destruct (parse_float_number _ Hsane H2) as [r Hr].
    destruct (parse_float_number _ Hsane H3) as [t Ht].
    exists b, r, t. auto.
  - pose proof (rx_scan_hits NUMBER_M_RE p None O) as Hhits.
    induction Hhits as [ | [c | w g after] ps Hp _ IH]; simpl; auto.
    constructor; [ | exact IH].
    destruct Hp as (pv & pre & st & _ & Hm & -> & _).
    pose proof (number_m_groups _ _ Hm eq_refl) as H1.
    destruct (parse_float_number _ Hsane H1) as [b Hb]. congruence.
  - pose proof (rx_scan_hits NUMBER_T_RE p None O) as Hhits.
    induction Hhits as [ | [c | w g after] ps Hp _ IH]; simpl; auto.
    constructor; [ | exact IH].
    destruct Hp as (pv & pre & st & _ & Hm & -> & _).
    pose proof (number_t_groups _ _ Hm eq_refl) as H1.
    destruct (parse_float_number _ Hsane H1) as [b Hb]. congruence.
Qed.
End NumbersParse.

(** * Instances of the further properties *)

Section MoreInstances.
#[local] Existing Instance latin1_db.

Lemma X5_configuration_record_invariant_witness :
  exists part,
    In part (split_candidates chunk_mb)
    /\ chunk_mb = firstn 220 (normalize part)
    /\ (8 <= length (normalize part))%nat
    /\ existsb (fun h => contains h (lower (normalize part))) CONFIG_HINTS = true
    /\ In (str_of "MB") (findall1 (finditer CONFIG_CODE_RE (normalize part)))
    /\ is_stop_code (str_of "MB") = false
    /\ (8 <= length chunk_mb <= 220)%nat.
Proof.
  apply (X5_configuration_record_invariant chunk_mb (str_of "MB") chunk_mb).
  vm_compute. reflexivity.
Defined.

Lemma X7_comma_or_point_witness :
  parse_float (str_of "12,5") = parse_float (str_of "12.5").
Proof.
  apply (proj2 (X7_comma_or_point (str_of "12,5") (str_of "12.5"))).
  reflexivity.
Defined.

Lemma X8_candidate_streams_witness :
  candidate_streams (str_of "1 0 obj stream" ++ newline ++ str_of "abc") = [].
Proof.
  apply (proj2 (X8_candidate_streams
                  (str_of "1 0 obj stream" ++ newline ++ str_of "abc"))).
  vm_compute. reflexivity.
Defined.

Lemma X9_decode_pdf_literal_witness :
  _decode_pdf_literal hello_world = hello_world
  /\ _decode_pdf_literal (encode_utf16_be (str_of "Hi")) = str_of "Hi".
Proof.
  destruct X9_decode_pdf_literal as [Hlatin Hutf]. split.
  - apply Hlatin; vm_compute; intuition discriminate.
  - apply Hutf.
    + repeat constructor; vm_compute; congruence.
    + vm_compute. auto.
Defined.

Lemma X11_code_shape_witness : code_shape (str_of "MB").
Proof.
  apply (proj1 (X11_code_shape chunk_mb) (str_of "MB") chunk_mb).
  vm_compute. reflexivity.
Defined.

Lemma X15_shown_text_round_trip_witness :
  extract_pdf_text toy_decompress (file_with_stream (120 :: show_stream hello_world))
  = hello_world.
Proof.
  refine (proj2 (X15_shown_text_round_trip toy_decompress
                   (file_with_stream (120 :: show_stream hello_world))
                   (120 :: show_stream hello_world) hello_world _ _ _ _ _)).
  - vm_compute. reflexivity.
  - reflexivity.
  - discriminate.
  - split; [ | split].
    + vm_compute. intuition discriminate.
    + intros c t' [= <- _]. reflexivity.
    + intros c t' Ht. apply (f_equal (@rev N)) in Ht.
      rewrite rev_app_distr in Ht. vm_compute in Ht. injection Ht as <- _.
      reflexivity.
  - repeat constructor; vm_compute; congruence.
Defined.
Lemma X16_chunks_and_separators_witness :
  separators (str_of "MB main boom | 12 m - 8 t") = [str_of " | "; str_of " - "]
  /\ Forall (fun w => w = str_of " | " \/ w = str_of " - ")
            (separators (str_of "MB main boom | 12 m - 8 t")).
Proof.
  split; [vm_compute; reflexivity | ].
  apply (proj2 (proj2 (proj2 (X16_chunks_and_separators
                                (str_of "MB main boom | 12 m - 8 t"))))).
  split; [ | split].
  - vm_compute. intuition discriminate.
  - intros c t' [= <- _]. reflexivity.
  - intros c t' Ht. apply (f_equal (@rev N)) in Ht.
    rewrite rev_app_distr in Ht. vm_compute in Ht. injection Ht as <- _.
    reflexivity.
Defined.

Lemma X17_configuration_rows_witness :
  configuration_rows [] = [(unknown, SENTINEL_DESCRIPTION)].
Proof.
  apply (proj1 (proj1 (proj2 (proj2 (proj2 (X17_configuration_rows [])))))).
  vm_compute. reflexivity.
Defined.
Lemma X20_captured_numbers_parse_witness :
  findall3 (finditer TRIPLE_RE chunk_lift)
  = [(str_of "12.0", str_of "8.0", str_of "45.0")]
  /\ Forall (fun m =>
               exists boom radius cap,
                 parse_float (fst (fst m)) = Some boom
                 /\ parse_float (snd (fst m)) = Some radius
                 /\ parse_float (snd m) = Some cap)
            (findall3 (finditer TRIPLE_RE chunk_lift)).
Proof.
  split; [vm_compute; reflexivity | ].
  assert (Hsane : sane_digits) by (intros c d E; discriminate E).
  exact (proj1 (X20_captured_numbers_parse chunk_lift Hsane)).
Defined.
End MoreInstances.
